(** * Gem Hunter: the Minesweeper-to-CNF encoder and decoder of PysatSupport.py

    A shallow embedding of [Source/Source_code/PysatSupport.py] and the
    properties of its coordinate mapper, neighbourhood enumerator,
    combination generator, clause synthesizer, formula assembler and result
    decoder.

    Python integers are [Z]; Python lists are [list]; a raised exception is
    the [Raise] branch of [result].  The decoder writes through row objects
    that the caller still holds, so rows live in a store ([gmap]) and a grid
    handed to the decoder is a list of row references. *)

From Stdlib Require Import ZArith List Lia Bool Sorted.
From stdpp Require Import prelude list_numbers sorting gmap.

Open Scope Z_scope.

(** ** The fragment of the Python runtime the module relies on *)

Inductive exn : Set :=
  | IndexError
  | ValueError
  | ZeroDivisionError.

Inductive result (A : Type) : Type :=
  | Ok (a : A)
  | Raise (e : exn).

Arguments Ok {A} a.
Arguments Raise {A} e.

Global Instance result_ret : MRet result := fun A a => Ok a.

Global Instance result_bind : MBind result := fun A B k m =>
  match m with
  | Ok a => k a
  | Raise e => Raise e
  end.

Global Instance result_fmap : FMap result := fun A B f m =>
  match m with
  | Ok a => Ok (f a)
  | Raise e => Raise e
  end.

(** [for x in xs: body], threading the variables the body assigns. *)
Fixpoint for_each {A S : Type} (xs : list A) (body : S → A → result S) (s : S)
  : result S :=
  match xs with
  | [] => Ok s
  | x :: xs' => s' ← body s x; for_each xs' body s'
  end.

(** [range(lo, hi)] *)
Definition range (lo hi : Z) : list Z := seqZ lo (hi - lo).

(** [l[i]]: a negative index counts from the end, anything outside raises. *)
Definition getitem {A : Type} (l : list A) (i : Z) : result A :=
  let n := Z.of_nat (length l) in
  let j := if i <? 0 then i + n else i in
  if (0 <=? j) && (j <? n)
  then match l !! Z.to_nat j with
       | Some x => Ok x
       | None => Raise IndexError
       end
  else Raise IndexError.

(** [l[i] = x] *)
Definition setitem {A : Type} (l : list A) (i : Z) (x : A) : result (list A) :=
  let n := Z.of_nat (length l) in
  let j := if i <? 0 then i + n else i in
  if (0 <=? j) && (j <? n)
  then Ok (<[Z.to_nat j := x]> l)
  else Raise IndexError.

(** [a // b] and [a % b]: floor division, the remainder has the sign of [b]. *)
Definition floordiv (a b : Z) : result Z :=
  if b =? 0 then Raise ZeroDivisionError else Ok (a / b).

Definition pymod (a b : Z) : result Z :=
  if b =? 0 then Raise ZeroDivisionError else Ok (a mod b).

(** [itertools.combinations(pool, r)]: the r-length subsequences of [pool],
    emitted in lexicographic order of positions; [r] larger than the pool
    gives nothing and a negative [r] is rejected with ValueError. *)
Fixpoint subsequences {A : Type} (pool : list A) (r : nat) : list (list A) :=
  match r, pool with
  | O, _ => [[]]
  | S _, [] => []
  | S r', x :: xs => map (cons x) (subsequences xs r') ++ subsequences xs r
  end.

Definition combinations {A : Type} (pool : list A) (r : Z) : result (list (list A)) :=
  if r <? 0 then Raise ValueError else Ok (subsequences pool (Z.to_nat r)).

(** ** Grid cells *)

(** A cell is the unknown marker ['_'], an integer hint, or after decoding
    one of the markers ['T'] (mine) and ['G'] (safe). *)
Inductive cell : Set :=
  | Unknown
  | Hint (h : Z)
  | Mine
  | Safe.

Global Instance cell_eq_dec : EqDecision cell.
Proof. solve_decision. Defined.

(** [x == '_'] *)
Definition is_unknown (x : cell) : bool :=
  match x with
  | Unknown => true
  | _ => false
  end.

(** [int(x)]: the identity on an integer, ValueError on a marker string. *)
Definition py_int (x : cell) : result Z :=
  match x with
  | Hint h => Ok h
  | _ => Raise ValueError
  end.

Abbreviation position := (Z * Z)%type.
Abbreviation size := (Z * Z)%type.
Abbreviation grid := (list (list cell)).
Abbreviation clause := (list Z).

(** ** Coordinate mapper *)

Definition convert_to_flatten (pos : position) (sz : size) : Z :=
  let '(num_r, num_c) := sz in
  let '(r, c) := pos in
  r * num_c + c + 1.

Definition convert_to_2D (flat : Z) (sz : size) : result position :=
  let '(num_r, num_c) := sz in
  c ← pymod (flat - 1) num_c;
  r ← floordiv (flat - 1) num_c;
  Ok (r, c).

(** ** Neighbourhood enumerator *)

(** [0 <= r < num_r and 0 <= c < num_c] *)
Definition in_bounds (pos : position) (sz : size) : bool :=
  let '(num_r, num_c) := sz in
  let '(r, c) := pos in
  (0 <=? r) && (r <? num_r) && ((0 <=? c) && (c <? num_c)).

(** The generator is its list of yielded values. *)
Definition generate_around (pos : position) (sz : size) : list position :=
  let '(r, c) := pos in
  let '(num_r, num_c) := sz in
  i ← range (-1) 2;
  j ← range (-1) 2;
  let new_r := r + i in
  let new_c := c + j in
  if (0 <=? new_r) && (new_r <? num_r) && ((0 <=? new_c) && (new_c <? num_c))
  then [(new_r, new_c)]
  else [].

Definition is_valid (pos : position) (g : grid) (sz : size) : result bool :=
  let '(num_r, num_c) := sz in
  let '(r, c) := pos in
  if (0 <=? r) && (r <? num_r) && ((0 <=? c) && (c <? num_c))
  then row ← getitem g r; x ← getitem row c; Ok (is_unknown x)
  else Ok false.

(** ** Combination generator *)

Definition list_combination (n k : Z) : result (list (list Z)) :=
  if k >? n then Ok []
  else combinations (range 1 (n + 1)) k.

(** ** Clause synthesizer *)

(** Lines 103-106: the variables of the unknown cells around [pos]. *)
Definition list_cells_of (pos : position) (g : grid) (sz : size) : result (list Z) :=
  for_each (generate_around pos sz)
    (fun list_cells new_pos =>
       valid ← is_valid new_pos g sz;
       if valid : bool
       then Ok (list_cells ++ [convert_to_flatten new_pos sz])
       else Ok list_cells)
    [].

(** The inner loops of lines 116-120 and 123-127; [lit] is the negation in
    the first and nothing in the second. *)
Definition clauses_of (lit : Z → Z) (list_cells : list Z) (combs : list (list Z))
    (clauses : list clause) : result (list clause) :=
  for_each combs
    (fun clauses comb =>
       cl ← for_each comb
               (fun cl index =>
                  v ← getitem list_cells (index - 1);
                  Ok (cl ++ [lit v]))
               [];
       Ok (clauses ++ [cl]))
    clauses.

Definition generate_CNF (pos : position) (g : grid) (sz : size) : result (list clause) :=
  row ← getitem g pos.1;
  x ← getitem row pos.2;
  if is_unknown x then Ok []
  else
    list_cells ← list_cells_of pos g sz;
    row ← getitem g pos.1;
    x ← getitem row pos.2;
    number ← py_int x;
    let num_valid := Z.of_nat (length list_cells) in
    let clauses := [] in
    first_comb ← list_combination num_valid (number + 1);
    clauses ← clauses_of Z.opp list_cells first_comb clauses;
    second_comb ← list_combination num_valid (num_valid - number + 1);
    clauses ← clauses_of (fun v => v) list_cells second_comb clauses;
    Ok clauses.

(** ** Formula assembler *)

(** PySAT's [CNF]: [append] keeps the largest variable seen and stores a
    copy of the clause at the end, [extend] appends clause by clause. *)
Record CNF : Set := mkCNF { nv : Z; clauses : list clause }.

Definition CNF_new : CNF := mkCNF 0 [].

Definition CNF_append (f : CNF) (cl : clause) : CNF :=
  mkCNF (foldr Z.max (nv f) (map Z.abs cl)) (clauses f ++ [cl]).

Definition CNF_extend (f : CNF) (cls : list clause) : CNF :=
  fold_left CNF_append cls f.

(** Lines 142-147 of [solve_by_pysat]: the formula handed to the solver. *)
Definition solve_by_pysat_cnf (g : grid) (sz : size) : result CNF :=
  let '(num_r, num_c) := sz in
  per_cell ← for_each (range 0 num_r)
                (fun acc r =>
                   for_each (range 0 num_c)
                     (fun acc c =>
                        cls ← generate_CNF (r, c) g sz;
                        Ok (acc ++ [cls]))
                     acc)
                [];
  Ok (fold_left CNF_extend per_cell CNF_new).

(** ** Result decoder *)

(** A row of the grid is a mutable list object: the store maps its identity
    to its current cells, and a grid is the list of its rows' identities. *)
Abbreviation loc := positive.
Abbreviation store := (gmap loc (list cell)).
Abbreviation grid_ref := (list loc).

(** The cell values a grid holds in a store. *)
Definition grid_of (h : store) (g : grid_ref) : grid := map (fun l => h !!! l) g.

(** Lines 177-183: the body of the inner loop at row [r] and column [c]. *)
Definition decode_cell (list_result : list Z) (output : grid_ref) (num_c r : Z)
    (h : store) (c : Z) : result store :=
  row ← getitem output r;
  x ← getitem (h !!! row) c;
  if negb (is_unknown x) then Ok h
  else
    let index := r * num_c + c in
    mine ← (if index <? Z.of_nat (length list_result)
            then v ← getitem list_result index; Ok (v >? 0)
            else Ok false);
    row ← getitem output r;
    cells ← setitem (h !!! row) c (if mine : bool then Mine else Safe);
    Ok (<[row := cells]> h).

(** [grid.copy()] builds a new outer list holding the same row objects; the
    outer list is never written afterwards, so it is passed by value. *)
Definition ouput_for_pysat (list_result : list Z) (g : grid_ref) (sz : size)
    (h : store) : result (grid_ref * store) :=
  let output := g in
  let '(num_r, num_c) := sz in
  h ← for_each (range 0 num_r)
        (fun h r => for_each (range 0 num_c) (decode_cell list_result output num_c r) h)
        h;
  Ok (output, h).

(** ** Entry point *)

Section Solver.
(** [Solver(bootstrap_with=cnf)]: [solve()] followed by [get_model()],
    [None] when the formula is unsatisfiable. *)
Variable solver : CNF → option (list Z).

Definition solve_by_pysat (g : grid) (sz : size) : result (option (list Z)) :=
  cnf ← solve_by_pysat_cnf g sz;
  Ok (solver cnf).

Definition Pysat_Solution (g : grid_ref) (sz : size) (h : store)
  : result (option (grid_ref * store)) :=
  res ← solve_by_pysat (grid_of h g) sz;
  match res with
  | Some model => out ← ouput_for_pysat model g sz h; Ok (Some out)
  | None => Ok None
  end.
End Solver.

(** ** Vocabulary of the specification *)

(** The binomial coefficient C(n, k), by Pascal's rule. *)
Fixpoint binom (n k : nat) : nat :=
  match k, n with
  | O, _ => 1
  | S _, O => 0
  | S k', S n' => (binom n' k' + binom n' k)%nat
  end.

(** Lexicographic order on index tuples. *)
Inductive lex_lt : list Z → list Z → Prop :=
  | lex_nil y l : lex_lt [] (y :: l)
  | lex_head x y l1 l2 : x < y → lex_lt (x :: l1) (y :: l2)
  | lex_tail x l1 l2 : lex_lt l1 l2 → lex_lt (x :: l1) (x :: l2).

(** A truth assignment gives each variable a value; a positive literal
    asserts its variable, a negative one denies it. *)
Definition lit_true (a : Z → bool) (l : Z) : bool :=
  if l >? 0 then a l else negb (a (- l)).

Definition clause_true (a : Z → bool) (cl : clause) : bool :=
  existsb (lit_true a) cl.

Definition formula_true (a : Z → bool) (cls : list clause) : bool :=
  forallb (clause_true a) cls.

(** How many of the variables in [vs] are assigned true. *)
Definition count_true (a : Z → bool) (vs : list Z) : Z :=
  Z.of_nat (length (List.filter a vs)).

(** The variable selected by a 1-based index into the neighbour variables. *)
Definition nth_var (list_cells : list Z) (index : Z) : Z :=
  nth (Z.to_nat (index - 1)) list_cells 0.

(** The nine offsets in row-major order. *)
Definition offsets : list (Z * Z) :=
  [(-1, -1); (-1, 0); (-1, 1); (0, -1); (0, 0); (0, 1); (1, -1); (1, 0); (1, 1)].

(** All positions of a grid of the given size in row-major order. *)
Definition positions (sz : size) : list position :=
  flat_map (fun r => map (fun c => (r, c)) (seqZ 0 sz.2)) (seqZ 0 sz.1).

(** The cell at [pos] of a grid value, when there is one. *)
Definition cell_at (g : grid) (pos : position) : option cell :=
  row ← g !! Z.to_nat pos.1; row !! Z.to_nat pos.2.

(** The unknown cells among the neighbours of [pos]. *)
Definition unknown_at (g : grid) (sz : size) (p : position) : bool :=
  in_bounds p sz && bool_decide (cell_at g p = Some Unknown).

Definition unknown_neighbours (pos : position) (g : grid) (sz : size) : list position :=
  List.filter (unknown_at g sz) (generate_around pos sz).

(** The mark the decoder gives to an unknown cell at row [r], column [c]. *)
Definition mark (list_result : list Z) (num_c r c : Z) : cell :=
  match list_result !! Z.to_nat (r * num_c + c) with
  | Some v => if v >? 0 then Mine else Safe
  | None => Safe
  end.

(** How a cell may change under decoding: not at all, or from unknown to
    one of the two marks. *)
Definition decoded (x y : cell) : Prop :=
  y = x ∨ (x = Unknown ∧ (y = Mine ∨ y = Safe)).

(** The value the decoder leaves in a cell at row [r], column [c]. *)
Definition decode (list_result : list Z) (num_c : Z) (r c : nat) (x : cell) : cell :=
  if is_unknown x then mark list_result num_c (Z.of_nat r) (Z.of_nat c) else x.

Definition decode_row (list_result : list Z) (num_c : Z) (r : nat) (row : list cell)
  : list cell :=
  imap (decode list_result num_c r) row.

(** Every row of the second store comes from the same row of the first by
    cell changes that decoding allows. *)
Definition evolved (h h' : store) : Prop :=
  ∀ l, Forall2 decoded (h !!! l) (h' !!! l).

(** The grid and the size agree: [num_r] rows of [num_c] cells each. *)
Definition shaped (g : grid) (sz : size) : Prop :=
  Z.of_nat (length g) = sz.1 ∧ Forall (fun row => Z.of_nat (length row) = sz.2) g.

(** Row-major order on positions. *)
Definition pos_lt (p q : position) : Prop :=
  p.1 < q.1 ∨ (p.1 = q.1 ∧ p.2 < q.2).

(** The truth value the decoder reads for a variable: the sign of the
    entry of the assignment at index [v - 1]. *)
Definition assignment_of (list_result : list Z) (v : Z) : bool :=
  match list_result !! Z.to_nat (v - 1) with
  | Some x => x >? 0
  | None => false
  end.


(** The grid has, for each row index that [size] names, a row object with
    at least as many cells as [size] names columns. *)
Definition covers (h : store) (g : grid_ref) (sz : size) : Prop :=
  ∀ r : nat, Z.of_nat r < sz.1 →
             ∃ l, g !! r = Some l ∧ sz.2 ≤ Z.of_nat (length (h !!! l)).

(** * Properties *)

(** ** Loops and indexing *)

Lemma for_each_app {A S} (xs ys : list A) (body : S → A → result S) s :
  for_each (xs ++ ys) body s = (s' ← for_each xs body s; for_each ys body s').
Proof.
  revert s. induction xs as [|x xs IH]; intros s; [done|].
  simpl. destruct (body s x) as [s'|e]; [apply IH|done].
Qed.

(** A loop whose body appends one computed element per iteration. *)
Lemma for_each_collect {A B C} (f : A → result B) (h : B → C) (xs : list A)
    (acc : list C) :
  for_each xs (fun acc x => y ← f x; Ok (acc ++ [h y])) acc
  = (ys ← mapM f xs; Ok (acc ++ map h ys)).
Proof.
  revert acc. induction xs as [|x xs IH]; intros acc; simpl.
  - by rewrite app_nil_r.
  - destruct (f x) as [y|e]; simpl; [|done]. rewrite IH.
    destruct (mapM f xs) as [ys|e]; simpl; [|done]. by rewrite <- app_assoc.
Qed.

Lemma mapM_Ok {A B} (f : A → result B) (g : A → B) (xs : list A) :
  Forall (fun x => f x = Ok (g x)) xs → mapM f xs = Ok (map g xs).
Proof.
  induction 1 as [|x xs Hx _ IH]; [done|]. simpl. by rewrite Hx, IH.
Qed.

(** A loop whose body appends an element for the items that pass a test. *)
Lemma for_each_select {A B} (t : A → result bool) (f : A → B) (xs : list A)
    (acc out : list B) :
  for_each xs (fun acc x => b ← t x; if b : bool then Ok (acc ++ [f x]) else Ok acc) acc
    = Ok out →
  out = acc ++ map f (List.filter (fun x => match t x with Ok true => true | _ => false end) xs)
  ∧ Forall (fun x => ∃ b, t x = Ok b) xs.
Proof.
  revert acc. induction xs as [|x xs IH]; intros acc; simpl.
  - intros [= <-]. by rewrite app_nil_r.
  - destruct (t x) as [[|]|e] eqn:Hx; simpl; [| |done].
    + intros [-> Hall]%IH. rewrite <- app_assoc. split; [done|]. constructor; eauto.
    + intros [-> Hall]%IH. split; [done|]. constructor; eauto.
Qed.


Lemma getitem_nonneg {A} (l : list A) (i : Z) :
  0 ≤ i →
  getitem l i = match l !! Z.to_nat i with
                | Some x => Ok x
                | None => Raise IndexError
                end.
Proof.
  intros Hi. unfold getitem. destruct (Z.ltb_spec i 0); [lia|].
  destruct (Z.leb_spec 0 i); [|lia]. simpl.
  destruct (Z.ltb_spec i (Z.of_nat (length l))); [done|].
  rewrite lookup_ge_None_2; [done|lia].
Qed.

Lemma getitem_lookup {A} (l : list A) (i : Z) (x : A) :
  0 ≤ i → l !! Z.to_nat i = Some x → getitem l i = Ok x.
Proof. intros Hi Hx. by rewrite getitem_nonneg, Hx. Qed.

Lemma getitem_Ok_nonneg {A} (l : list A) (i : Z) (x : A) :
  0 ≤ i → getitem l i = Ok x → l !! Z.to_nat i = Some x.
Proof.
  intros Hi. rewrite getitem_nonneg by done.
  destruct (l !! Z.to_nat i); [by intros [= ->]|done].
Qed.

Lemma setitem_nonneg {A} (l : list A) (i : Z) (x : A) :
  0 ≤ i < Z.of_nat (length l) → setitem l i x = Ok (<[Z.to_nat i := x]> l).
Proof.
  intros Hi. unfold setitem. destruct (Z.ltb_spec i 0); [lia|].
  destruct (Z.leb_spec 0 i); [|lia]. simpl.
  destruct (Z.ltb_spec i (Z.of_nat (length l))); [done|lia].
Qed.

(** ** The coordinate mapper *)

Section Coordinates.
Variables num_r num_c : Z.
Hypothesis cols_pos : 0 < num_c.

Lemma floordiv_flatten r c :
  0 ≤ c < num_c → (r * num_c + c) / num_c = r.
Proof.
  intros Hc. rewrite Z.add_comm, Z.div_add by lia.
  rewrite Z.div_small by lia. lia.
Qed.

Lemma pymod_flatten r c :
  0 ≤ c < num_c → (r * num_c + c) mod num_c = c.
Proof.
  intros Hc. rewrite Z.add_comm, Z.mod_add by lia.
  apply Z.mod_small. lia.
Qed.

Lemma convert_to_flatten_inj r1 c1 r2 c2 :
  0 ≤ c1 < num_c → 0 ≤ c2 < num_c →
  convert_to_flatten (r1, c1) (num_r, num_c) = convert_to_flatten (r2, c2) (num_r, num_c) →
  (r1, c1) = (r2, c2).
Proof.
  unfold convert_to_flatten. intros H1 H2 Heq.
  assert (Hsum : r1 * num_c + c1 = r2 * num_c + c2) by lia.
  assert (r1 = r2).
  { rewrite <- (floordiv_flatten r1 c1 H1), <- (floordiv_flatten r2 c2 H2).
    by rewrite Hsum. }
  subst r2. f_equal. lia.
Qed.
End Coordinates.

(** C2: with at least one row and one column, the two conversions are
    inverse to each other: going from an in-bounds position to its variable
    and back returns the position, and going from a variable between 1 and
    rows*cols to its position and back returns the variable. *)
Theorem C2_flatten_2D_inverse (rows cols : Z) :
  0 < rows → 0 < cols →
  (∀ r c, 0 ≤ r < rows → 0 ≤ c < cols →
     convert_to_2D (convert_to_flatten (r, c) (rows, cols)) (rows, cols) = Ok (r, c))
  ∧ (∀ v, 1 ≤ v ≤ rows * cols →
       ∃ p, convert_to_2D v (rows, cols) = Ok p
            ∧ convert_to_flatten p (rows, cols) = v).
Proof.
  intros Hrows Hcols. split.
  - intros r c Hr Hc. unfold convert_to_2D, convert_to_flatten, pymod, floordiv.
    destruct (Z.eqb_spec cols 0) as [->|_]; [lia|]. simpl.
    replace (r * cols + c + 1 - 1) with (r * cols + c) by lia.
    by rewrite pymod_flatten, floordiv_flatten.
  - intros v Hv. unfold convert_to_2D, pymod, floordiv.
    destruct (Z.eqb_spec cols 0) as [->|Hne]; [lia|]. simpl.
    eexists. split; [reflexivity|]. unfold convert_to_flatten.
    pose proof (Z.div_mod (v - 1) cols Hne). lia.
Qed.

Lemma C2_flatten_2D_inverse_witness :
  convert_to_2D (convert_to_flatten (1, 2) (3, 4)) (3, 4) = Ok (1, 2)
  ∧ ∃ p, convert_to_2D 7 (3, 4) = Ok p ∧ convert_to_flatten p (3, 4) = 7.
Proof.
  destruct (C2_flatten_2D_inverse 3 4 ltac:(lia) ltac:(lia)) as [H1 H2].
  split.
  - apply H1; lia.
  - apply H2; lia.
Defined.

(** ** The neighbourhood enumerator *)

Lemma yield_loop_filter {A B : Type} (f : A → B) (q : B → bool) (l : list A) :
  (x ← l; if q (f x) then [f x] else []) = List.filter q (map f l).
Proof.
  induction l as [|x l IH]; [done|].
  rewrite bind_cons, IH. simpl. by destruct (q (f x)).
Qed.

Lemma nested_yield_loop_filter {A B C : Type} (f : A → B → C) (q : C → bool)
    (l1 : list A) (l2 : list B) :
  (x ← l1; y ← l2; if q (f x y) then [f x y] else [])
  = List.filter q (map (fun d => f d.1 d.2) (x ← l1; y ← l2; [(x, y)])).
Proof.
  induction l1 as [|x l1 IH]; [done|].
  rewrite !bind_cons, IH, map_app, List.filter_app. f_equal.
  rewrite (yield_loop_filter (f x) q l2). f_equal.
  clear. induction l2 as [|y l2 IH]; [done|].
  rewrite bind_cons. simpl. by rewrite IH.
Qed.

Lemma generate_around_offsets r c sz :
  generate_around (r, c) sz
  = List.filter (fun p => in_bounds p sz) (map (fun d => (r + d.1, c + d.2)) offsets).
Proof.
  destruct sz as [num_r num_c]. unfold generate_around.
  exact (nested_yield_loop_filter (fun i j => (r + i, c + j))
           (fun p => in_bounds p (num_r, num_c)) (range (-1) 2) (range (-1) 2)).
Qed.

Lemma offsets_NoDup : NoDup offsets.
Proof. apply (bool_decide_unpack _). by vm_compute. Qed.

Lemma generate_around_NoDup pos sz : NoDup (generate_around pos sz).
Proof.
  destruct pos as [r c]. rewrite generate_around_offsets.
  apply NoDup_ListNoDup, List.NoDup_filter, NoDup_ListNoDup.
  apply NoDup_fmap_2; [|apply offsets_NoDup].
  intros [i1 j1] [i2 j2]; simpl. intros [=]. f_equal; lia.
Qed.

Lemma generate_around_in_bounds pos sz p :
  p ∈ generate_around pos sz → in_bounds p sz = true.
Proof.
  destruct pos as [r c]. rewrite generate_around_offsets.
  rewrite list_elem_of_In, List.filter_In. tauto.
Qed.

(** C7: the neighbourhood of [p] is the list of the positions p + (i, j),
    with (i, j) running over the nine offsets in row-major order, that lie
    inside the grid; so every neighbour is in bounds, and [p] itself is a
    neighbour whenever it is in bounds. *)
Theorem C7_generate_around_exact (r c : Z) (sz : size) :
  generate_around (r, c) sz
  = List.filter (fun p => in_bounds p sz) (map (fun d => (r + d.1, c + d.2)) offsets)
  ∧ Forall (fun p => 0 ≤ p.1 < sz.1 ∧ 0 ≤ p.2 < sz.2) (generate_around (r, c) sz)
  ∧ (in_bounds (r, c) sz = true → (r, c) ∈ generate_around (r, c) sz).
Proof.
  split; [apply generate_around_offsets|]. split.
  - apply Forall_forall. intros [r' c'] Hin%generate_around_in_bounds.
    destruct sz as [num_r num_c]. unfold in_bounds in Hin. simpl. lia.
  - intros Hin. rewrite generate_around_offsets, list_elem_of_In, List.filter_In.
    split; [|done]. apply in_map_iff. exists (0, 0). simpl. split.
    + f_equal; lia.
    + unfold offsets. simpl. tauto.
Qed.

Lemma C7_generate_around_exact_witness :
  (1, 1) ∈ generate_around (1, 1) (2, 3).
Proof.
  apply (C7_generate_around_exact 1 1 (2, 3)). reflexivity.
Defined.

(** ** The combination generator *)

Section Subsequences.
Context {A : Type}.
Implicit Types (pool c : list A) (r : nat).

Lemma subsequences_0 pool : subsequences pool 0 = [[]].
Proof. by destruct pool. Qed.

Lemma subsequences_cons x pool r :
  subsequences (x :: pool) (S r)
  = map (cons x) (subsequences pool r) ++ subsequences pool (S r).
Proof. reflexivity. Qed.

Lemma length_subsequences pool r :
  length (subsequences pool r) = binom (length pool) r.
Proof.
  revert r. induction pool as [|x pool IH]; intros [|r]; try reflexivity.
  rewrite subsequences_cons, length_app, length_map, !IH. reflexivity.
Qed.

Lemma elem_of_subsequences pool r c :
  c ∈ subsequences pool r ↔ c `sublist_of` pool ∧ length c = r.
Proof.
  revert r c. induction pool as [|x pool IH]; intros r c.
  - destruct r as [|r]; simpl.
    + rewrite list_elem_of_singleton, sublist_nil_r.
      split; [by intros ->|tauto].
    + rewrite elem_of_nil, sublist_nil_r.
      split; [done|]. by intros [-> ?].
  - destruct r as [|r].
    + rewrite subsequences_0, list_elem_of_singleton. split.
      * intros ->. split; [apply sublist_nil_l|done].
      * intros [_ Hlen]. by apply nil_length_inv.
    + rewrite subsequences_cons, elem_of_app, list_elem_of_fmap, sublist_cons_r.
      rewrite IH. setoid_rewrite IH. split.
      * intros [(c' & -> & Hsub & <-)|[Hsub Hlen]]; split; eauto.
      * intros [[Hsub|(c' & -> & Hsub)] Hlen]; [by right|left].
        exists c'. simpl in Hlen. split_and!; [done..|lia].
Qed.

Lemma subsequences_too_long pool r :
  (length pool < r)%nat → subsequences pool r = [].
Proof.
  intros Hlt. destruct (subsequences pool r) as [|c cs] eqn:E; [done|].
  assert (Hc : c ∈ subsequences pool r) by (rewrite E; left).
  apply elem_of_subsequences in Hc as [Hsub%sublist_length <-]. lia.
Qed.

End Subsequences.

Lemma subsequences_map {A B} (f : A → B) (pool : list A) r :
  subsequences (map f pool) r = map (map f) (subsequences pool r).
Proof.
  revert r. induction pool as [|x pool IH]; intros [|r]; try reflexivity.
  cbn [map]. rewrite !subsequences_cons, map_app, !map_map, !IH, map_map.
  reflexivity.
Qed.

Lemma binom_0_r n : binom n 0 = 1%nat.
Proof. by destruct n. Qed.

Lemma binom_gt n k : (n < k)%nat → binom n k = 0%nat.
Proof.
  revert k. induction n as [|n IH]; intros [|k] Hlt; try lia; [done|].
  simpl. rewrite !IH by lia. reflexivity.
Qed.

Lemma binom_diag n : binom n n = 1%nat.
Proof.
  induction n as [|n IH]; [done|]. simpl. rewrite IH, binom_gt by lia. lia.
Qed.

(** Pascal's rule agrees with the quotient of factorials. *)
Lemma binom_fact n k :
  (k ≤ n)%nat → (binom n k * (fact k * fact (n - k)) = fact n)%nat.
Proof.
  revert k. induction n as [|n IH]; intros k Hle.
  - assert (k = 0%nat) as -> by lia. reflexivity.
  - destruct k as [|k]; [simpl binom; simpl Nat.sub; simpl (fact 0); lia|].
    destruct (decide (k = n)) as [->|Hne].
    + rewrite binom_diag, Nat.sub_diag. simpl (fact 0). lia.
    + assert (Hk : (k ≤ n)%nat) by lia. assert (HSk : (S k ≤ n)%nat) by lia.
      pose proof (IH k Hk) as H1. pose proof (IH (S k) HSk) as H2.
      change (binom (S n) (S k)) with (binom n k + binom n (S k))%nat.
      replace (S n - S k)%nat with (n - k)%nat by lia.
      replace (n - k)%nat with (S (n - S k)) in * by lia.
      change (fact (S n)) with (S n * fact n)%nat.
      change (fact (S k)) with (S k * fact k)%nat in *.
      change (fact (S (n - S k))) with (S (n - S k) * fact (n - S k))%nat in *.
      nia.
Qed.

Lemma lex_lt_irrefl l : ¬ lex_lt l l.
Proof.
  induction l as [|x l IH]; inversion 1; subst; [lia|by apply IH].
Qed.

Lemma sublist_head_elem_of (x : Z) c pool : x :: c `sublist_of` pool → x ∈ pool.
Proof.
  intros Hsub. apply sublist_subseteq in Hsub.
  apply Hsub. left.
Qed.

Lemma subsequences_lex_sorted (pool : list Z) r :
  StronglySorted Z.lt pool → StronglySorted lex_lt (subsequences pool r).
Proof.
  revert r. induction pool as [|x pool IH]; intros r Hsorted.
  - destruct r; simpl; repeat constructor.
  - destruct r as [|r]; [rewrite subsequences_0; repeat constructor|].
    apply StronglySorted_inv in Hsorted as [Hpool Hx].
    rewrite subsequences_cons. apply StronglySorted_app_2.
    + intros c1 c2 (c & -> & _)%list_elem_of_fmap [Hsub Hlen]%elem_of_subsequences.
      destruct c2 as [|y c2]; [done|]. apply lex_head.
      apply sublist_head_elem_of in Hsub.
      rewrite Forall_forall in Hx. by apply Hx.
    + specialize (IH r Hpool). induction IH as [|c cs _ IHcs Hc]; simpl.
      * constructor.
      * constructor; [done|]. apply Forall_fmap.
        eapply Forall_impl; [exact Hc|]. intros c' Hlt. by apply lex_tail.
    + by apply IH.
Qed.

Lemma lex_sorted_NoDup (l : list (list Z)) : StronglySorted lex_lt l → NoDup l.
Proof.
  induction 1 as [|c cs _ IH Hc]; constructor; [|done].
  intros Hin. rewrite Forall_forall in Hc. by apply (lex_lt_irrefl c), Hc.
Qed.

(** In an ascending pool the subsequences are the ascending selections. *)
Lemma sublist_of_sorted (pool c : list Z) :
  StronglySorted Z.lt pool →
  c `sublist_of` pool ↔ StronglySorted Z.lt c ∧ Forall (fun i => i ∈ pool) c.
Proof.
  intros Hpool. split.
  - intros Hsub. split.
    + clear -Hsub Hpool. induction Hsub as [|x c pool Hsub IH|x c pool Hsub IH].
      * constructor.
      * apply StronglySorted_inv in Hpool as [Hpool Hx]. constructor; [by apply IH|].
        rewrite Forall_forall in Hx |- *. intros y Hy. apply Hx.
        apply sublist_subseteq in Hsub. by apply Hsub.
      * apply StronglySorted_inv in Hpool as [Hpool _]. by apply IH.
    + apply Forall_forall. intros i Hi.
      apply sublist_subseteq in Hsub. by apply Hsub.
  - revert c. induction Hpool as [|y pool Hpool IH Hy]; intros c [Hc Hin].
    + destruct c as [|x c]; [done|]. apply Forall_cons in Hin as [Hx%elem_of_nil _]. done.
    + destruct c as [|x c]; [apply sublist_nil_l|].
      apply StronglySorted_inv in Hc as [Hc Hx].
      apply Forall_cons in Hin as [Hxin Hin].
      rewrite Forall_forall in Hy, Hx, Hin.
      assert (Htail : Forall (fun i => i ∈ pool) c).
      { apply Forall_forall. intros i Hi. specialize (Hx i Hi).
        specialize (Hin i Hi). apply elem_of_cons in Hin as [->|]; [|done].
        apply elem_of_cons in Hxin as [->|Hxin]; [lia|].
        specialize (Hy x Hxin). lia. }
      apply elem_of_cons in Hxin as [->|Hxin].
      * apply sublist_skip. by apply IH.
      * apply sublist_cons. apply IH. split; [by constructor; [|apply Forall_forall]|].
        by constructor.
Qed.

Lemma seqZ_sorted m n : StronglySorted Z.lt (seqZ m n).
Proof.
  destruct (decide (0 ≤ n)) as [Hn|Hn].
  - revert m. pattern n. apply natlike_ind; [| |done].
    + intros m. constructor.
    + clear n Hn. intros n Hn IH m. rewrite seqZ_cons by lia.
      replace (Z.pred (Z.succ n)) with n by lia.
      constructor; [apply IH|]. apply Forall_forall. intros i Hi%elem_of_seqZ. lia.
  - unfold seqZ. replace (Z.to_nat n) with 0%nat by lia. constructor.
Qed.

Lemma list_combination_nonneg n k :
  0 ≤ n → 0 ≤ k →
  list_combination n k = Ok (subsequences (seqZ 1 n) (Z.to_nat k)).
Proof.
  intros Hn Hk. unfold list_combination, combinations, range.
  replace (n + 1 - 1) with n by lia.
  destruct (Z.gtb_spec k n) as [Hgt|Hle].
  - rewrite subsequences_too_long; [done|]. rewrite length_seqZ. lia.
  - destruct (Z.ltb_spec k 0); [lia|done].
Qed.

Lemma list_combination_negative n k :
  k < 0 → 0 ≤ n → list_combination n k = Raise ValueError.
Proof.
  intros Hk Hn. unfold list_combination, combinations.
  destruct (Z.gtb_spec k n); [lia|]. destruct (Z.ltb_spec k 0); [done|lia].
Qed.

(** C6, on non-negative [k]: [list_combination n k] returns a list that has
    C(n, k) entries, whose entries are exactly the strictly ascending
    [k]-tuples over 1..n, without repetition and in lexicographic order;
    the list is empty when [k > n] and is the single empty tuple when
    [k = 0]. *)
Theorem C6_list_combination_exact (n k : Z) :
  0 ≤ n → 0 ≤ k →
  ∃ combs,
    list_combination n k = Ok combs
    ∧ length combs = binom (Z.to_nat n) (Z.to_nat k)
    ∧ (∀ c, c ∈ combs ↔
            StronglySorted Z.lt c ∧ Z.of_nat (length c) = k
            ∧ Forall (fun i => 1 ≤ i ≤ n) c)
    ∧ NoDup combs
    ∧ StronglySorted lex_lt combs
    ∧ (k > n → combs = [])
    ∧ (k = 0 → combs = [[]]).
Proof.
  intros Hn Hk. eexists. split; [by apply list_combination_nonneg|].
  pose proof (seqZ_sorted 1 n) as Hsorted.
  split_and!.
  - rewrite length_subsequences, length_seqZ. reflexivity.
  - intros c. rewrite elem_of_subsequences, (sublist_of_sorted _ _ Hsorted).
    assert (Hrange : Forall (fun i => i ∈ seqZ 1 n) c ↔ Forall (fun i => 1 ≤ i ≤ n) c).
    { apply Forall_proper; [|done]. intros i. rewrite elem_of_seqZ. lia. }
    rewrite Hrange. split; [intros [[? ?] ?]|intros (? & ? & ?)]; split_and!; try done; lia.
  - by apply lex_sorted_NoDup, subsequences_lex_sorted.
  - by apply subsequences_lex_sorted.
  - intros Hgt. apply subsequences_too_long. rewrite length_seqZ. lia.
  - intros ->. apply subsequences_0.
Qed.

Lemma C6_list_combination_exact_witness :
  ∃ combs, list_combination 4 2 = Ok combs ∧ length combs = 6%nat.
Proof.
  destruct (C6_list_combination_exact 4 2 ltac:(lia) ltac:(lia))
    as (combs & Hrun & Hlen & _).
  exists combs. split; [exact Hrun|exact Hlen].
Defined.

(** C6 does not extend to a negative [k]: the call raises ValueError
    instead of returning the (empty) list of subsets. *)
Lemma C6_negative_k_raises :
  list_combination 3 (-1) = Raise ValueError
  ∧ ¬ ∃ combs, list_combination 3 (-1) = Ok combs.
Proof.
  split; [reflexivity|]. intros [combs Hrun]. discriminate Hrun.
Qed.

(** ** The clause synthesizer *)

Lemma getitem_nth_var (V : list Z) (i : Z) :
  1 ≤ i ≤ Z.of_nat (length V) → getitem V (i - 1) = Ok (nth_var V i).
Proof.
  intros Hi. apply getitem_lookup; [lia|]. unfold nth_var.
  destruct (nth_lookup_or_length V (Z.to_nat (i - 1)) 0) as [Hx|Hge]; [done|lia].
Qed.

Lemma nth_var_seqZ (V : list Z) : map (nth_var V) (seqZ 1 (Z.of_nat (length V))) = V.
Proof.
  apply list_eq. intros i. change (map (nth_var V)) with (fmap (M:=list) (nth_var V)).
  rewrite list_lookup_fmap.
  destruct (V !! i) as [x|] eqn:Hx.
  - rewrite lookup_seqZ_lt by (apply lookup_lt_Some in Hx; lia). simpl.
    unfold nth_var. replace (Z.to_nat (1 + Z.of_nat i - 1)) with i by lia.
    f_equal. by apply nth_lookup_Some.
  - rewrite lookup_seqZ_ge; [done|]. apply lookup_ge_None in Hx. lia.
Qed.

Lemma clauses_of_Ok lit V combs acc :
  Forall (Forall (fun i => 1 ≤ i ≤ Z.of_nat (length V))) combs →
  clauses_of lit V combs acc
  = Ok (acc ++ map (map (fun i => lit (nth_var V i))) combs).
Proof.
  intros Hcombs. unfold clauses_of.
  rewrite (for_each_collect
             (fun comb => for_each comb
                (fun cl index => v ← getitem V (index - 1); Ok (cl ++ [lit v])) [])
             (fun cl => cl)).
  erewrite mapM_Ok; [simpl; by rewrite map_id|].
  eapply Forall_impl; [exact Hcombs|]. intros comb Hcomb. simpl.
  rewrite (for_each_collect (fun index => getitem V (index - 1)) lit).
  erewrite mapM_Ok; [simpl; by rewrite map_map|].
  eapply Forall_impl; [exact Hcomb|]. intros i Hi. by apply getitem_nth_var.
Qed.

Lemma list_combination_in_range n k combs :
  list_combination n k = Ok combs → Forall (Forall (fun i => 1 ≤ i ≤ n)) combs.
Proof.
  unfold list_combination, combinations, range.
  destruct (k >? n); [by intros [= <-]|].
  destruct (k <? 0); [done|]. intros [= <-].
  apply Forall_forall. intros c [Hsub _]%elem_of_subsequences.
  apply Forall_forall. intros i Hi. apply sublist_subseteq in Hsub.
  apply Hsub, elem_of_seqZ in Hi. lia.
Qed.

(** The shape of the clause list for a hint cell, given its neighbour
    variables: what the two calls to [list_combination] return decides
    everything. *)
Lemma generate_CNF_hint pos g sz row h V :
  getitem g pos.1 = Ok row → getitem row pos.2 = Ok (Hint h) →
  list_cells_of pos g sz = Ok V →
  generate_CNF pos g sz
  = (first_comb ← list_combination (Z.of_nat (length V)) (h + 1);
     second_comb ← list_combination (Z.of_nat (length V)) (Z.of_nat (length V) - h + 1);
     Ok (map (map (fun i => - nth_var V i)) first_comb
         ++ map (map (nth_var V)) second_comb)).
Proof.
  intros Hrow Hcell HV. unfold generate_CNF.
  rewrite Hrow. cbn [mbind result_bind]. rewrite Hcell.
  cbn [mbind result_bind is_unknown]. rewrite HV. cbn [mbind result_bind py_int].
  destruct (list_combination _ (h + 1)) as [first_comb|e] eqn:H1; simpl; [|done].
  rewrite clauses_of_Ok by (by eapply list_combination_in_range). simpl.
  destruct (list_combination _ (_ - h + 1)) as [second_comb|e] eqn:H2; simpl; [|done].
  rewrite clauses_of_Ok by (by eapply list_combination_in_range). simpl.
  reflexivity.
Qed.

Lemma generate_CNF_unknown pos g sz row :
  getitem g pos.1 = Ok row → getitem row pos.2 = Ok Unknown →
  generate_CNF pos g sz = Ok [].
Proof.
  intros Hrow Hcell. unfold generate_CNF. rewrite Hrow. simpl. by rewrite Hcell.
Qed.

Lemma selections_of_indices (lit : Z → Z) (V : list Z) (r : nat) :
  map (map (fun i => lit (nth_var V i))) (subsequences (seqZ 1 (Z.of_nat (length V))) r)
  = map (map lit) (subsequences V r).
Proof.
  rewrite <- !subsequences_map. f_equal.
  rewrite <- (map_map (nth_var V) lit). by rewrite nth_var_seqZ.
Qed.

(** With the hint between -1 and one more than the number of unknown
    neighbours, the clauses are the negated (h+1)-selections followed by
    the (m-h+1)-selections of the neighbour variables. *)
Lemma generate_CNF_selections pos g sz row h V :
  getitem g pos.1 = Ok row → getitem row pos.2 = Ok (Hint h) →
  list_cells_of pos g sz = Ok V →
  -1 ≤ h ≤ Z.of_nat (length V) + 1 →
  generate_CNF pos g sz
  = Ok (map (map Z.opp) (subsequences V (Z.to_nat (h + 1)))
        ++ subsequences V (Z.to_nat (Z.of_nat (length V) - h + 1))).
Proof.
  intros Hrow Hcell HV Hh.
  rewrite (generate_CNF_hint _ _ _ _ _ _ Hrow Hcell HV).
  rewrite !list_combination_nonneg by lia. cbn [mbind result_bind]. do 2 f_equal.
  - apply (selections_of_indices Z.opp).
  - rewrite (selections_of_indices (fun v => v)).
    rewrite (map_ext _ (fun c => c)); [apply map_id|]. intros c. apply map_id.
Qed.

(** A hint that exceeds the number of unknown neighbours by two or more
    makes the second call to [list_combination] ask for a negative size. *)
Lemma generate_CNF_hint_too_large pos g sz row h V :
  getitem g pos.1 = Ok row → getitem row pos.2 = Ok (Hint h) →
  list_cells_of pos g sz = Ok V →
  Z.of_nat (length V) + 1 < h →
  generate_CNF pos g sz = Raise ValueError.
Proof.
  intros Hrow Hcell HV Hh.
  rewrite (generate_CNF_hint _ _ _ _ _ _ Hrow Hcell HV).
  rewrite (list_combination_nonneg _ (h + 1)) by lia. cbn [mbind result_bind].
  rewrite list_combination_negative by lia. reflexivity.
Qed.

(** *** The neighbour variables *)

Lemma in_bounds_spec r c num_r num_c :
  in_bounds (r, c) (num_r, num_c) = true ↔ 0 ≤ r < num_r ∧ 0 ≤ c < num_c.
Proof. unfold in_bounds. lia. Qed.

Lemma getitem_cell_at (g : grid) (pos : position) (x : cell) :
  0 ≤ pos.1 → 0 ≤ pos.2 →
  (∃ row, getitem g pos.1 = Ok row ∧ getitem row pos.2 = Ok x)
  ↔ cell_at g pos = Some x.
Proof.
  intros Hr Hc. unfold cell_at. split.
  - intros (row & Hrow%getitem_Ok_nonneg & Hx%getitem_Ok_nonneg); [|done..].
    by rewrite Hrow.
  - destruct (g !! Z.to_nat pos.1) as [row|] eqn:Hrow; simpl; [|done].
    intros Hx. exists row. split; by apply getitem_lookup.
Qed.

Lemma is_valid_unknown_at p g sz b :
  is_valid p g sz = Ok b → unknown_at g sz p = b.
Proof.
  destruct p as [r c], sz as [num_r num_c]. unfold is_valid, unknown_at.
  change ((0 <=? r) && (r <? num_r) && ((0 <=? c) && (c <? num_c)))
    with (in_bounds (r, c) (num_r, num_c)).
  destruct (in_bounds _ _) eqn:Hin; [|by intros [= <-]].
  apply in_bounds_spec in Hin as [Hr Hc]. simpl.
  destruct (getitem g r) as [row|] eqn:Hrow; simpl; [|done].
  destruct (getitem row c) as [x|] eqn:Hx; simpl; [|done]. intros [= <-].
  assert (Hcell : cell_at g (r, c) = Some x).
  { apply getitem_cell_at; simpl; [lia..|]. eauto. }
  rewrite Hcell. destruct x; by vm_compute.
Qed.

Lemma list_cells_of_unknown_neighbours pos g sz V :
  list_cells_of pos g sz = Ok V →
  V = map (fun p => convert_to_flatten p sz) (unknown_neighbours pos g sz).
Proof.
  intros [-> Hall]%for_each_select. simpl. f_equal. unfold unknown_neighbours.
  apply List.filter_ext_in. intros p Hp%list_elem_of_In.
  rewrite Forall_forall in Hall. destruct (Hall p Hp) as [b Hb].
  rewrite Hb. rewrite (is_valid_unknown_at _ _ _ _ Hb). by destruct b.
Qed.




Lemma unknown_neighbours_in_bounds pos g sz p :
  p ∈ unknown_neighbours pos g sz → in_bounds p sz = true.
Proof.
  unfold unknown_neighbours, unknown_at.
  rewrite list_elem_of_In, List.filter_In, andb_true_iff. tauto.
Qed.

Lemma neighbour_variables_positive pos g sz :
  Forall (fun v => 0 < v)
    (map (fun p => convert_to_flatten p sz) (unknown_neighbours pos g sz)).
Proof.
  apply Forall_forall. intros v Hv%list_elem_of_In. apply in_map_iff in Hv as ([r c] & <- & Hp).
  apply list_elem_of_In, unknown_neighbours_in_bounds in Hp.
  destruct sz as [num_r num_c]. apply in_bounds_spec in Hp. simpl. nia.
Qed.

Lemma neighbour_variables_NoDup pos g sz :
  NoDup (map (fun p => convert_to_flatten p sz) (unknown_neighbours pos g sz)).
Proof.
  apply (NoDup_fmap_2_strong (fun p => convert_to_flatten p sz)).
  - intros [r1 c1] [r2 c2] H1%unknown_neighbours_in_bounds H2%unknown_neighbours_in_bounds.
    destruct sz as [num_r num_c].
    apply in_bounds_spec in H1, H2. apply convert_to_flatten_inj; lia.
  - apply NoDup_ListNoDup, List.NoDup_filter, NoDup_ListNoDup, generate_around_NoDup.
Qed.

(** *** Cardinality by selections *)

Lemma forallb_map {A B} (f : A → B) (p : B → bool) l :
  forallb p (map f l) = forallb (fun x => p (f x)) l.
Proof. induction l as [|x l IH]; simpl; [done|]. by rewrite IH. Qed.

Lemma existsb_map {A B} (f : A → B) (p : B → bool) l :
  existsb p (map f l) = existsb (fun x => p (f x)) l.
Proof. induction l as [|x l IH]; simpl; [done|]. by rewrite IH. Qed.

Lemma forallb_existsb_map {A B} (f : A → B) (p : B → bool) (l : list (list A)) :
  forallb (existsb p) (map (map f) l) = forallb (existsb (fun x => p (f x))) l.
Proof.
  induction l as [|c l IH]; simpl; [done|]. by rewrite IH, existsb_map.
Qed.

Lemma forallb_true {A} (l : list A) : forallb (fun _ => true) l = true.
Proof. by induction l. Qed.

(** Every selection of [k+1] elements contains one with property [P]
    exactly when at most [k] elements lack it. *)
Lemma subsequences_all_hit {A} (P : A → bool) (l : list A) (k : nat) :
  forallb (existsb P) (subsequences l (S k)) = true
  ↔ (length (List.filter (fun x => negb (P x)) l) ≤ k)%nat.
Proof.
  revert k. induction l as [|x l IH]; intros k.
  - simpl. split; [lia|done].
  - rewrite subsequences_cons, forallb_app, forallb_map, andb_true_iff.
    cbn [existsb List.filter]. destruct (P x); cbn [orb negb].
    + rewrite forallb_true, IH. tauto.
    + cbn [length]. destruct k as [|k].
      * rewrite subsequences_0. simpl. split; [by intros [? _]|lia].
      * rewrite !IH. lia.
Qed.

Lemma lit_true_pos a v : 0 < v → lit_true a v = a v.
Proof. intros Hv. unfold lit_true. by destruct (Z.gtb_spec v 0); [|lia]. Qed.

Lemma lit_true_neg a v : 0 < v → lit_true a (- v) = negb (a v).
Proof.
  intros Hv. unfold lit_true. destruct (Z.gtb_spec (- v) 0); [lia|].
  by rewrite Z.opp_involutive.
Qed.

Lemma at_most_clauses a (V : list Z) (k : nat) :
  Forall (fun v => 0 < v) V →
  formula_true a (map (map Z.opp) (subsequences V (S k))) = true
  ↔ count_true a V ≤ Z.of_nat k.
Proof.
  intros Hpos. unfold formula_true, clause_true, count_true.
  rewrite forallb_existsb_map, subsequences_all_hit.
  rewrite (List.filter_ext_in (fun v => negb (lit_true a (- v))) a); [lia|].
  intros v Hv. rewrite Forall_forall in Hpos.
  rewrite lit_true_neg by (by apply Hpos, list_elem_of_In). apply negb_involutive.
Qed.

Lemma at_least_clauses a (V : list Z) (k : nat) :
  Forall (fun v => 0 < v) V →
  formula_true a (subsequences V (S k)) = true
  ↔ Z.of_nat (length V) - Z.of_nat k ≤ count_true a V.
Proof.
  intros Hpos. unfold formula_true, clause_true, count_true.
  rewrite subsequences_all_hit.
  rewrite (List.filter_ext_in (fun v => negb (lit_true a v)) (fun v => negb (a v))).
  - pose proof (List.filter_length a V). lia.
  - intros v Hv. rewrite Forall_forall in Hpos.
    by rewrite lit_true_pos by (by apply Hpos, list_elem_of_In).
Qed.

(** *** What a call to [generate_CNF] can return *)

Lemma list_combination_sublist n k combs :
  list_combination n k = Ok combs → Forall (fun c => c `sublist_of` seqZ 1 n) combs.
Proof.
  unfold list_combination, combinations, range.
  destruct (k >? n); [by intros [= <-]|].
  destruct (k <? 0); [done|]. intros [= <-].
  replace (n + 1 - 1) with n by lia.
  apply Forall_forall. by intros c [Hsub _]%elem_of_subsequences.
Qed.

Lemma selection_sublist (V comb : list Z) :
  comb `sublist_of` seqZ 1 (Z.of_nat (length V)) → map (nth_var V) comb `sublist_of` V.
Proof.
  intros Hsub. rewrite <- (nth_var_seqZ V) at 2.
  by apply (fmap_sublist (nth_var V)).
Qed.

Lemma generate_CNF_inv pos g sz cls :
  generate_CNF pos g sz = Ok cls →
  cls = []
  ∨ ∃ V first_comb second_comb,
      list_cells_of pos g sz = Ok V
      ∧ Forall (fun c => c `sublist_of` seqZ 1 (Z.of_nat (length V))) first_comb
      ∧ Forall (fun c => c `sublist_of` seqZ 1 (Z.of_nat (length V))) second_comb
      ∧ cls = map (map (fun i => - nth_var V i)) first_comb
              ++ map (map (nth_var V)) second_comb.
Proof.
  intros Hrun. pose proof Hrun as Hrun'. unfold generate_CNF in Hrun'.
  destruct (getitem g pos.1) as [row|] eqn:Hrow; [|done].
  cbn [mbind result_bind] in Hrun'.
  destruct (getitem row pos.2) as [x|] eqn:Hx; [|done].
  cbn [mbind result_bind] in Hrun'.
  destruct (is_unknown x) eqn:Hunk; [left; by simplify_eq|].
  destruct (list_cells_of pos g sz) as [V|] eqn:HV; [|done].
  cbn [mbind result_bind] in Hrun'.
  destruct x as [|h| |]; try done. clear Hrun'.
  rewrite (generate_CNF_hint _ _ _ _ _ _ Hrow Hx HV) in Hrun.
  destruct (list_combination _ (h + 1)) as [first_comb|] eqn:H1; [|done].
  cbn [mbind result_bind] in Hrun.
  destruct (list_combination _ (_ - h + 1)) as [second_comb|] eqn:H2; [|done].
  cbn [mbind result_bind] in Hrun. injection Hrun as <-.
  right. exists V, first_comb, second_comb.
  split_and!; [done|by eapply list_combination_sublist..|done].
Qed.

Lemma abs_positive (c : list Z) : Forall (fun v => 0 < v) c → map Z.abs c = c.
Proof.
  induction 1 as [|v c Hv _ IH]; [done|]. simpl. rewrite IH. f_equal. lia.
Qed.

Lemma abs_opp_positive (c : list Z) :
  Forall (fun v => 0 < v) c → map Z.abs (map Z.opp c) = c.
Proof.
  induction 1 as [|v c Hv _ IH]; [done|]. simpl. rewrite IH. f_equal. lia.
Qed.

(** C1: take an in-bounds position whose cell is the hint [h], let [V] be
    the variables of its unknown neighbours and suppose 0 <= h <= |V|.
    Then [generate_CNF] returns a clause list, and a truth assignment
    satisfies all of its clauses if and only if it makes exactly [h] of the
    variables in [V] true. *)
Theorem C1_generate_CNF_exactly_h (g : grid) (sz : size) (pos : position)
    (h : Z) (V : list Z) :
  in_bounds pos sz = true →
  cell_at g pos = Some (Hint h) →
  list_cells_of pos g sz = Ok V →
  0 ≤ h ≤ Z.of_nat (length V) →
  V = map (fun p => convert_to_flatten p sz) (unknown_neighbours pos g sz)
  ∧ ∃ cls,
      generate_CNF pos g sz = Ok cls
      ∧ ∀ a, formula_true a cls = true ↔ count_true a V = h.
Proof.
  intros Hin Hcell HV Hh.
  pose proof (list_cells_of_unknown_neighbours _ _ _ _ HV) as HVeq.
  split; [done|].
  assert (Hpos : Forall (fun v => 0 < v) V).
  { rewrite HVeq. apply neighbour_variables_positive. }
  destruct pos as [r c], sz as [num_r num_c].
  apply in_bounds_spec in Hin as [Hr Hc].
  apply getitem_cell_at in Hcell as (row & Hrow & Hx); simpl; [|lia..].
  eexists. split.
  { apply (generate_CNF_selections _ _ _ row h V); [done..|lia]. }
  intros a. unfold formula_true. rewrite forallb_app, andb_true_iff.
  fold (formula_true a (map (map Z.opp) (subsequences V (Z.to_nat (h + 1))))).
  fold (formula_true a (subsequences V (Z.to_nat (Z.of_nat (length V) - h + 1)))).
  replace (Z.to_nat (h + 1)) with (S (Z.to_nat h)) by lia.
  replace (Z.to_nat (Z.of_nat (length V) - h + 1))
    with (S (Z.to_nat (Z.of_nat (length V) - h))) by lia.
  rewrite at_most_clauses, at_least_clauses by done. lia.
Qed.

Lemma C1_generate_CNF_exactly_h_witness :
  ∃ cls,
    generate_CNF (1, 1)
      [[Hint 1; Unknown; Unknown]; [Hint 0; Hint 1; Hint 1]; [Hint 0; Hint 0; Hint 0]]
      (3, 3) = Ok cls
    ∧ ∀ a, formula_true a cls = true ↔ count_true a [2; 3] = 1.
Proof.
  apply (C1_generate_CNF_exactly_h
           [[Hint 1; Unknown; Unknown]; [Hint 0; Hint 1; Hint 1]; [Hint 0; Hint 0; Hint 0]]
           (3, 3) (1, 1) 1 [2; 3]).
  - reflexivity.
  - reflexivity.
  - reflexivity.
  - simpl. lia.
Defined.

(** C10: in every clause that [generate_CNF] returns, the literals are
    over pairwise distinct variables, so a clause repeats no literal and
    holds no complementary pair. *)
Theorem C10_clause_variables_distinct (pos : position) (g : grid) (sz : size)
    (cls : list clause) :
  generate_CNF pos g sz = Ok cls →
  Forall (fun cl => NoDup (map Z.abs cl)) cls.
Proof.
  intros [->|(V & first_comb & second_comb & HV & H1 & H2 & ->)]%generate_CNF_inv;
    [constructor|].
  pose proof (list_cells_of_unknown_neighbours _ _ _ _ HV) as HVeq.
  assert (Hpos : Forall (fun v => 0 < v) V).
  { rewrite HVeq. apply neighbour_variables_positive. }
  assert (Hnodup : NoDup V).
  { rewrite HVeq. apply neighbour_variables_NoDup. }
  assert (Hsel : ∀ comb, comb `sublist_of` seqZ 1 (Z.of_nat (length V)) →
                         NoDup (map (nth_var V) comb)
                         ∧ Forall (fun v => 0 < v) (map (nth_var V) comb)).
  { intros comb Hsub%selection_sublist. split.
    - by eapply sublist_NoDup.
    - eapply Forall_forall. intros v Hv. rewrite Forall_forall in Hpos.
      by apply Hpos, (sublist_subseteq _ _ Hsub). }
  apply Forall_app. split; apply Forall_forall; intros cl Hcl%list_elem_of_In;
    apply in_map_iff in Hcl as (comb & <- & Hcomb%list_elem_of_In).
  - rewrite Forall_forall in H1. destruct (Hsel comb (H1 comb Hcomb)) as [Hnd Hp].
    rewrite <- (map_map (nth_var V) Z.opp). by rewrite abs_opp_positive.
  - rewrite Forall_forall in H2. destruct (Hsel comb (H2 comb Hcomb)) as [Hnd Hp].
    by rewrite abs_positive.
Qed.

Lemma C10_clause_variables_distinct_witness :
  Forall (fun cl => NoDup (map Z.abs cl)) [[-2; -3]; [2; 3]].
Proof.
  apply (C10_clause_variables_distinct (1, 1)
           [[Hint 1; Unknown; Unknown]; [Hint 0; Hint 1; Hint 1]; [Hint 0; Hint 0; Hint 0]]
           (3, 3)).
  reflexivity.
Defined.

(** ** The formula assembler *)

Lemma for_each_ext {A S} (body1 body2 : S → A → result S) (xs : list A) s :
  (∀ s x, body1 s x = body2 s x) → for_each xs body1 s = for_each xs body2 s.
Proof.
  intros Hext. revert s. induction xs as [|x xs IH]; intros s; [done|].
  simpl. rewrite Hext. destruct (body2 s x); [apply IH|done].
Qed.

(** A loop whose body appends a computed batch per iteration. *)
Lemma for_each_collect_batches {A B} (f : A → result (list B)) (xs : list A)
    (acc : list B) :
  for_each xs (fun acc x => ys ← f x; Ok (acc ++ ys)) acc
  = (yss ← mapM f xs; Ok (acc ++ concat yss)).
Proof.
  revert acc. induction xs as [|x xs IH]; intros acc; simpl.
  - by rewrite app_nil_r.
  - destruct (f x) as [ys|e]; simpl; [|done]. rewrite IH.
    destruct (mapM f xs) as [yss|e]; simpl; [|done]. by rewrite <- app_assoc.
Qed.

Lemma mapM_map {A B C} (f : B → result C) (g : A → B) (xs : list A) :
  mapM f (map g xs) = mapM (fun x => f (g x)) xs.
Proof. induction xs as [|x xs IH]; simpl; [done|]. by rewrite IH. Qed.

Lemma mapM_pointwise {A B} (f1 f2 : A → result B) (xs : list A) :
  (∀ x, f1 x = f2 x) → mapM f1 xs = mapM f2 xs.
Proof.
  intros Hext. induction xs as [|x xs IH]; simpl; [done|]. by rewrite Hext, IH.
Qed.

Lemma mapM_app {A B} (f : A → result B) (xs ys : list A) :
  mapM f (xs ++ ys) = (xs' ← mapM f xs; ys' ← mapM f ys; Ok (xs' ++ ys')).
Proof.
  induction xs as [|x xs IH]; simpl.
  - by destruct (mapM f ys).
  - destruct (f x) as [y|e]; simpl; [|done]. rewrite IH.
    destruct (mapM f xs); simpl; [|done]. by destruct (mapM f ys).
Qed.

Lemma mapM_flat_map {A B C} (f : B → result C) (g : A → list B) (xs : list A) :
  mapM f (flat_map g xs) = @concat C <$> mapM (fun x => mapM f (g x)) xs.
Proof.
  induction xs as [|x xs IH]; simpl; [done|].
  rewrite mapM_app, IH. destruct (mapM f (g x)); simpl; [|done].
  by destruct (mapM _ xs).
Qed.

Lemma clauses_CNF_extend f cls : clauses (CNF_extend f cls) = clauses f ++ cls.
Proof.
  unfold CNF_extend. revert f. induction cls as [|cl cls IH]; intros f; simpl.
  - by rewrite app_nil_r.
  - rewrite IH. simpl. by rewrite <- app_assoc.
Qed.

Lemma clauses_fold_CNF_extend f per_cell :
  clauses (fold_left CNF_extend per_cell f) = clauses f ++ concat per_cell.
Proof.
  revert f. induction per_cell as [|cls per_cell IH]; intros f; simpl.
  - by rewrite app_nil_r.
  - by rewrite IH, clauses_CNF_extend, <- app_assoc.
Qed.

Lemma solve_by_pysat_cnf_positions g sz :
  clauses <$> solve_by_pysat_cnf g sz
  = @concat clause <$> mapM (fun p => generate_CNF p g sz) (positions sz).
Proof.
  destruct sz as [num_r num_c]. unfold solve_by_pysat_cnf, positions, range.
  simpl fst; simpl snd. rewrite !Z.sub_0_r.
  rewrite (for_each_ext _
             (fun acc r => ys ← mapM (fun c => generate_CNF (r, c) g (num_r, num_c))
                                  (seqZ 0 num_c);
                           Ok (acc ++ ys))).
  2:{ intros acc r.
      rewrite (for_each_collect (fun c => generate_CNF (r, c) g (num_r, num_c))
                 (fun cls => cls)).
      destruct (mapM _ _); simpl; [|done]. by rewrite map_id. }
  rewrite for_each_collect_batches. rewrite mapM_flat_map.
  rewrite (mapM_pointwise
             (fun r => mapM (fun p => generate_CNF p g (num_r, num_c))
                         (map (fun c => (r, c)) (seqZ 0 num_c)))
             (fun r => mapM (fun c => generate_CNF (r, c) g (num_r, num_c))
                         (seqZ 0 num_c)))
    by (intros r; apply mapM_map).
  destruct (mapM _ (seqZ 0 num_r)) as [yss|e]; simpl; [|done].
  by rewrite clauses_fold_CNF_extend.
Qed.

(** A hint one larger than the number of unknown neighbours yields the
    empty clause, which no assignment satisfies. *)
Lemma generate_CNF_contradiction pos g sz row h V :
  getitem g pos.1 = Ok row → getitem row pos.2 = Ok (Hint h) →
  list_cells_of pos g sz = Ok V →
  h = Z.of_nat (length V) + 1 →
  generate_CNF pos g sz = Ok [[]] ∧ ∀ a, formula_true a [[]] = false.
Proof.
  intros Hrow Hcell HV ->. split; [|done].
  rewrite (generate_CNF_selections _ _ _ _ _ _ Hrow Hcell HV) by lia.
  rewrite subsequences_too_long by lia.
  replace (Z.to_nat _) with 0%nat by lia. by rewrite subsequences_0.
Qed.

(** C5: the clauses handed to the solver are the concatenation, over the
    positions in row-major order, of the clause lists of [generate_CNF],
    nothing dropped or reordered; an unknown cell contributes no clause, and
    a hint cell contributes its upper-bound clauses (negated selections of
    size h+1) followed by its lower-bound clauses (selections of size
    m-h+1). *)
Theorem C5_formula_is_concatenation (g : grid) (sz : size) :
  clauses <$> solve_by_pysat_cnf g sz
  = @concat clause <$> mapM (fun p => generate_CNF p g sz) (positions sz)
  ∧ (∀ pos, in_bounds pos sz = true → cell_at g pos = Some Unknown →
            generate_CNF pos g sz = Ok [])
  ∧ (∀ pos h V upper lower,
       in_bounds pos sz = true → cell_at g pos = Some (Hint h) →
       list_cells_of pos g sz = Ok V →
       list_combination (Z.of_nat (length V)) (h + 1) = Ok upper →
       list_combination (Z.of_nat (length V)) (Z.of_nat (length V) - h + 1) = Ok lower →
       generate_CNF pos g sz
       = Ok (map (map (fun i => - nth_var V i)) upper
             ++ map (map (nth_var V)) lower)).
Proof.
  split; [apply solve_by_pysat_cnf_positions|]. split.
  - intros [r c] Hin Hcell. destruct sz as [num_r num_c].
    apply in_bounds_spec in Hin as [Hr Hc].
    apply getitem_cell_at in Hcell as (row & Hrow & Hx); simpl; [|lia..].
    by eapply generate_CNF_unknown.
  - intros [r c] h V upper lower Hin Hcell HV Hupper Hlower.
    destruct sz as [num_r num_c]. apply in_bounds_spec in Hin as [Hr Hc].
    apply getitem_cell_at in Hcell as (row & Hrow & Hx); simpl; [|lia..].
    rewrite (generate_CNF_hint _ _ _ _ _ _ Hrow Hx HV), Hupper. simpl.
    by rewrite Hlower.
Qed.

Lemma C5_formula_is_concatenation_witness :
  clauses <$> solve_by_pysat_cnf [[Hint 1; Unknown]; [Unknown; Unknown]] (2, 2)
  = Ok [[-2; -3]; [-2; -4]; [-3; -4]; [2; 3; 4]]
  ∧ generate_CNF (0, 1) [[Hint 1; Unknown]; [Unknown; Unknown]] (2, 2) = Ok []
  ∧ generate_CNF (0, 0) [[Hint 1; Unknown]; [Unknown; Unknown]] (2, 2)
    = Ok ([[-2; -3]; [-2; -4]; [-3; -4]] ++ [[2; 3; 4]]).
Proof.
  destruct (C5_formula_is_concatenation [[Hint 1; Unknown]; [Unknown; Unknown]] (2, 2))
    as (Hall & Hunknown & Hhint).
  split; [rewrite Hall; reflexivity|]. split.
  - apply Hunknown; reflexivity.
  - apply (Hhint (0, 0) 1 [2; 3; 4] [[1; 2]; [1; 3]; [2; 3]] [[1; 2; 3]]); reflexivity.
Defined.

(** C3, at a grid whose only cell is the hint 2 (no unknown neighbour):
    the second call to [list_combination] asks for a selection of size -1,
    ValueError is raised, and no formula reaches the solver, whatever the
    solver is. *)
Theorem C3_hint_exceeding_neighbours_raises :
  list_cells_of (0, 0) [[Hint 2]] (1, 1) = Ok []
  ∧ list_combination 0 (0 - 2 + 1) = Raise ValueError
  ∧ generate_CNF (0, 0) [[Hint 2]] (1, 1) = Raise ValueError
  ∧ solve_by_pysat_cnf [[Hint 2]] (1, 1) = Raise ValueError
  ∧ ∀ solver, Pysat_Solution solver [1%positive] (1, 1) {[1%positive := [Hint 2]]}
              = Raise ValueError.
Proof.
  split_and!; [reflexivity..|]. intros solver. reflexivity.
Qed.

(** ** The result decoder *)

(** A counting loop keeps an invariant that every iteration re-establishes. *)
Lemma for_each_range_invariant {S} (I : nat → S → Prop) (body : S → Z → result S)
    (n : Z) (s0 : S) :
  I 0%nat s0 →
  (∀ (i : nat) s, Z.of_nat i < n → I i s →
                  ∃ s', body s (Z.of_nat i) = Ok s' ∧ I (Datatypes.S i) s') →
  ∃ s', for_each (range 0 n) body s0 = Ok s' ∧ I (Z.to_nat n) s'.
Proof.
  intros H0 Hstep. unfold range. rewrite Z.sub_0_r.
  assert (Hk : ∀ k : nat, Z.of_nat k ≤ Z.max 0 n →
                 ∃ s', for_each (seqZ 0 (Z.of_nat k)) body s0 = Ok s' ∧ I k s').
  { induction k as [|k IH]; intros Hle.
    - exists s0. by split.
    - destruct IH as (s & Hrun & Hs); [lia|].
      destruct (Hstep k s) as (s' & Hbody & Hs'); [lia|done|].
      exists s'. split; [|done].
      rewrite seqZ_S, Z.add_0_l, for_each_app, Hrun.
      cbn [mbind result_bind for_each]. by rewrite Hbody. }
  destruct (Hk (Z.to_nat n)) as (s' & Hrun & Hs'); [lia|].
  exists s'. split; [|done].
  destruct (decide (0 ≤ n)).
  - by rewrite Z2Nat.id in Hrun.
  - unfold seqZ in *. by replace (Z.to_nat n) with 0%nat in * by lia.
Qed.

Lemma mark_cases lr num_c r c :
  mark lr num_c r c = Mine ∨ mark lr num_c r c = Safe.
Proof.
  unfold mark. destruct (lr !! _) as [v|]; [|by right].
  destruct (v >? 0); [by left|by right].
Qed.

Lemma mark_not_unknown lr num_c r c : mark lr num_c r c ≠ Unknown.
Proof. by destruct (mark_cases lr num_c r c) as [-> | ->]. Qed.

(** One iteration of the inner loop on a cell that exists. *)
Lemma decode_cell_run lr (g : list loc) num_c (r c : nat) (h : store) l x :
  Z.of_nat c < num_c →
  g !! r = Some l → (h !!! l) !! c = Some x →
  decode_cell lr g num_c (Z.of_nat r) h (Z.of_nat c)
  = Ok (if is_unknown x
        then <[l := <[c := mark lr num_c (Z.of_nat r) (Z.of_nat c)]> (h !!! l)]> h
        else h).
Proof.
  intros Hc Hl Hx. unfold decode_cell.
  rewrite (getitem_lookup g (Z.of_nat r) l) by (by rewrite ?Nat2Z.id; try lia).
  cbn [mbind result_bind].
  rewrite (getitem_lookup (h !!! l) (Z.of_nat c) x) by (by rewrite ?Nat2Z.id; try lia).
  cbn [mbind result_bind].
  destruct (is_unknown x); [|done]. cbn [negb].
  assert (Hlen : (c < length (h !!! l))%nat) by (by eapply lookup_lt_Some).
  assert (Hidx : 0 ≤ Z.of_nat r * num_c + Z.of_nat c) by nia.
  unfold mark.
  destruct (Z.ltb_spec (Z.of_nat r * num_c + Z.of_nat c) (Z.of_nat (length lr))) as [Hlt|Hge].
  - destruct (lookup_lt_is_Some_2 lr (Z.to_nat (Z.of_nat r * num_c + Z.of_nat c)))
      as [v Hv]; [lia|].
    rewrite (getitem_lookup _ _ v) by done. rewrite Hv. cbn [mbind result_bind].
    rewrite setitem_nonneg by lia. rewrite Nat2Z.id. done.
  - rewrite lookup_ge_None_2 by lia. cbn [mbind result_bind].
    rewrite setitem_nonneg by lia. rewrite Nat2Z.id. done.
Qed.

Lemma shaped_row (h : store) (g : list loc) sz (r : nat) :
  shaped (grid_of h g) sz → Z.of_nat r < sz.1 →
  ∃ l, g !! r = Some l ∧ Z.of_nat (length (h !!! l)) = sz.2.
Proof.
  intros [Hrows Hcols] Hr. unfold grid_of in *. rewrite length_map in Hrows.
  destruct (lookup_lt_is_Some_2 g r) as [l Hl]; [lia|].
  exists l. split; [done|]. rewrite Forall_forall in Hcols. apply Hcols.
  apply list_elem_of_In, in_map_iff. exists l. split; [done|].
  by eapply list_elem_of_In, list_elem_of_lookup_2.
Qed.

Lemma cell_at_grid_of (h : store) (g : list loc) (pos : position) :
  cell_at (grid_of h g) pos = (l ← g !! Z.to_nat pos.1; (h !!! l) !! Z.to_nat pos.2).
Proof.
  unfold cell_at, grid_of.
  change (map (fun l => h !!! l) g) with ((fun l => h !!! l) <$> g).
  rewrite list_lookup_fmap. by destruct (g !! Z.to_nat pos.1).
Qed.

Lemma evolved_refl h : evolved h h.
Proof. intros l. apply Forall2_same_length_lookup. split; [done|]. intros; left; congruence. Qed.

Lemma evolved_length h h' l : evolved h h' → length (h' !!! l) = length (h !!! l).
Proof. intros Hev. symmetry. by eapply Forall2_length. Qed.

(** Writing a mark over a cell that is unknown keeps the store evolved. *)
Lemma evolved_mark (h h' : store) l (c : nat) m :
  evolved h h' → (h' !!! l) !! c = Some Unknown → m = Mine ∨ m = Safe →
  evolved h (<[l := <[c := m]> (h' !!! l)]> h').
Proof.
  intros Hev Hc Hm l'. rewrite lookup_total_insert.
  destruct (decide (l = l')) as [<-|_]; [|done].
  specialize (Hev l).
  destruct (Forall2_lookup_r _ _ _ _ _ Hev Hc) as (x0 & Hx0 & Hdec).
  rewrite <- (list_insert_id (h !!! l) c x0) by done.
  apply Forall2_insert; [done|].
  destruct Hdec as [<-|[-> _]]; right; done.
Qed.

Section Frame.
Variables (lr : list Z) (g : list loc) (num_r num_c : Z) (h : store).
Hypothesis Hshape : shaped (grid_of h g) (num_r, num_c).

(** The inner loop over row [r]: the store stays evolved, the rows above
    stay free of unknown cells, and the columns passed are free of them. *)
Lemma inner_loop_frame (r : nat) l (h1 : store) :
  Z.of_nat r < num_r → g !! r = Some l →
  evolved h h1 →
  (∀ r' l', (r' < r)%nat → g !! r' = Some l' →
            Forall (fun y => y ≠ Unknown) (h1 !!! l')) →
  ∃ h2, for_each (range 0 num_c) (decode_cell lr g num_c (Z.of_nat r)) h1 = Ok h2
        ∧ evolved h h2
        ∧ ∀ r' l', (r' < Datatypes.S r)%nat → g !! r' = Some l' →
                   Forall (fun y => y ≠ Unknown) (h2 !!! l').
Proof.
  intros Hr Hl Hev Habove.
  destruct (shaped_row _ _ _ _ Hshape Hr) as (l0 & Hl0 & Hlen). simplify_eq. simpl in Hlen.
  destruct (for_each_range_invariant
              (fun j h2 => evolved h h2
                 ∧ (∀ r' l', (r' < r)%nat → g !! r' = Some l' →
                             Forall (fun y => y ≠ Unknown) (h2 !!! l'))
                 ∧ Forall (fun y => y ≠ Unknown) (take j (h2 !!! l)))
              (decode_cell lr g num_c (Z.of_nat r)) num_c h1)
    as (h2 & Hrun & Hev2 & Habove2 & Hrow2).
  - split_and!; [done..|]. rewrite take_0. constructor.
  - intros j h2 Hj (Hev2 & Habove2 & Hrow2).
    pose proof (evolved_length _ _ l Hev2) as Hlen2.
    destruct (lookup_lt_is_Some_2 (h2 !!! l) j) as [x Hx]; [lia|].
    rewrite (decode_cell_run lr g num_c r j h2 l x) by done.
    eexists. split; [reflexivity|].
    destruct x; cbn [is_unknown];
      try (split_and!; [done..|]; erewrite take_S_r by done;
           apply Forall_app; split; [done|]; by repeat constructor).
    pose proof (mark_cases lr num_c (Z.of_nat r) (Z.of_nat j)) as Hm.
    pose proof (mark_not_unknown lr num_c (Z.of_nat r) (Z.of_nat j)) as Hm'.
    split_and!.
    + by apply evolved_mark.
    + intros r' l' Hr' Hl'. rewrite lookup_total_insert.
      destruct (decide (l = l')) as [<-|_]; [|by eapply Habove2].
      apply Forall_insert; [|done]. by eapply Habove2.
    + rewrite lookup_total_insert_eq.
      erewrite take_S_r by (apply list_lookup_insert_eq; lia).
      rewrite take_insert_ge by lia.
      apply Forall_app; split; [done|]. by repeat constructor.
  - exists h2. split_and!; [done..|].
    intros r' l' Hr' Hl'. destruct (decide (r' = r)) as [->|Hne].
    + simplify_eq. rewrite take_ge in Hrow2; [done|].
      rewrite (evolved_length _ _ l Hev2). lia.
    + apply (Habove2 r'); [lia|done].
Qed.

Lemma outer_loop_frame :
  ∃ h', ouput_for_pysat lr g (num_r, num_c) h = Ok (g, h')
        ∧ evolved h h'
        ∧ ∀ r l, Z.of_nat r < num_r → g !! r = Some l →
                 Forall (fun y => y ≠ Unknown) (h' !!! l).
Proof.
  unfold ouput_for_pysat.
  destruct (for_each_range_invariant
              (fun i h2 => evolved h h2
                 ∧ ∀ r l, (r < i)%nat → g !! r = Some l →
                          Forall (fun y => y ≠ Unknown) (h2 !!! l))
              (fun h2 r => for_each (range 0 num_c) (decode_cell lr g num_c r) h2)
              num_r h)
    as (h' & Hrun & Hev & Hall).
  - split; [apply evolved_refl|]. intros; lia.
  - intros i h2 Hi [Hev Habove].
    destruct (lookup_lt_is_Some_2 g i) as [l Hl].
    { destruct Hshape as [Hrows _]. unfold grid_of in Hrows.
      rewrite length_map in Hrows. simpl in Hrows. lia. }
    by apply (inner_loop_frame i l).
  - exists h'. rewrite Hrun. split_and!; [done..|].
    intros r l Hr Hl. apply (Hall r); [lia|done].
Qed.
End Frame.

(** C8: on a grid whose dimensions are those of [size], the decoder
    returns; a cell that was not the unknown marker keeps its value, and a
    cell that was the unknown marker holds 'T' or 'G'.  The returned grid
    has the dimensions of the input. *)
Theorem C8_decoder_changes_only_unknown (lr : list Z) (g : list loc) (sz : size)
    (h : store) :
  shaped (grid_of h g) sz →
  ∃ out h',
    ouput_for_pysat lr g sz h = Ok (out, h')
    ∧ shaped (grid_of h' out) sz
    ∧ ∀ pos x,
        in_bounds pos sz = true → cell_at (grid_of h g) pos = Some x →
        (x ≠ Unknown → cell_at (grid_of h' out) pos = Some x)
        ∧ (x = Unknown → cell_at (grid_of h' out) pos = Some Mine
                         ∨ cell_at (grid_of h' out) pos = Some Safe).
Proof.
  destruct sz as [num_r num_c]. intros Hshape.
  destruct (outer_loop_frame lr g num_r num_c h Hshape) as (h' & Hrun & Hev & Hknown).
  exists g, h'. split_and!; [done| |].
  - destruct Hshape as [Hrows Hcols]. split.
    + unfold grid_of in *. by rewrite length_map in *.
    + unfold grid_of in *. rewrite Forall_map in Hcols |- *.
      eapply Forall_impl; [exact Hcols|]. intros l Hl. simpl in *.
      by rewrite (evolved_length _ _ l Hev).
  - intros [r c] x [Hr Hc]%in_bounds_spec. rewrite !cell_at_grid_of. simpl.
    destruct (g !! Z.to_nat r) as [l|] eqn:Hl; simpl; [|done]. intros Hx.
    destruct (Forall2_lookup_l _ _ _ _ _ (Hev l) Hx) as (y & Hy & Hdec).
    assert (Hyk : y ≠ Unknown).
    { specialize (Hknown (Z.to_nat r) l ltac:(lia) Hl).
      rewrite Forall_forall in Hknown. by eapply Hknown, list_elem_of_lookup_2. }
    rewrite Hy. destruct Hdec as [->|[-> [->| ->]]]; split; intros; try done; auto.
Qed.

Lemma C8_decoder_changes_only_unknown_witness :
  ∃ out h',
    ouput_for_pysat [1; -2; 3; -4] [1%positive; 2%positive] (2, 2)
      {[ 1%positive := [Unknown; Hint 1]; 2%positive := [Hint 1; Unknown] ]}
    = Ok (out, h')
    ∧ shaped (grid_of h' out) (2, 2).
Proof.
  destruct (C8_decoder_changes_only_unknown [1; -2; 3; -4] [1%positive; 2%positive] (2, 2)
              {[ 1%positive := [Unknown; Hint 1]; 2%positive := [Hint 1; Unknown] ]})
    as (out & h' & Hrun & Hshape & _).
  - split; [reflexivity|]. repeat constructor.
  - exists out, h'. split; [exact Hrun|exact Hshape].
Defined.

Lemma decode_prefix_step {A} (f : nat → A → A) (row : list A) (j : nat) (x : A) :
  row !! j = Some x →
  <[j := f j x]> (imap f (take j row) ++ drop j row)
  = imap f (take (S j) row) ++ drop (S j) row.
Proof.
  intros Hx. pose proof (lookup_lt_Some _ _ _ Hx) as Hj.
  assert (Hlen : length (imap f (take j row)) = j).
  { rewrite length_imap, length_take. lia. }
  rewrite insert_app_r_alt by lia. rewrite Hlen, Nat.sub_diag.
  rewrite (drop_S row x j Hx), (take_S_r row j x Hx), imap_app. simpl.
  rewrite length_take, Nat.min_l, Nat.add_0_r by lia. by rewrite <- app_assoc.
Qed.

Section Marks.
Variables (lr : list Z) (g : list loc) (num_r num_c : Z) (h : store).
Hypothesis Hshape : shaped (grid_of h g) (num_r, num_c).
Hypothesis Hrows : NoDup g.

(** The inner loop over row [r] rewrites that row object into its decoded
    form and touches no other. *)
Lemma inner_loop_marks (r : nat) l (h1 : store) :
  g !! r = Some l → Z.of_nat (length (h1 !!! l)) = num_c →
  ∃ h2, for_each (range 0 num_c) (decode_cell lr g num_c (Z.of_nat r)) h1 = Ok h2
        ∧ (∀ l', l' ≠ l → h2 !!! l' = h1 !!! l')
        ∧ h2 !!! l = decode_row lr num_c r (h1 !!! l).
Proof.
  intros Hl Hlen. set (row := h1 !!! l) in *.
  destruct (for_each_range_invariant
              (fun j h2 => (∀ l', l' ≠ l → h2 !!! l' = h1 !!! l')
                 ∧ h2 !!! l = imap (decode lr num_c r) (take j row) ++ drop j row)
              (decode_cell lr g num_c (Z.of_nat r)) num_c h1)
    as (h2 & Hrun & Hother & Hrow).
  - split; [done|]. by rewrite take_0, drop_0.
  - intros j h2 Hj [Hother Hrow].
    destruct (lookup_lt_is_Some_2 row j) as [x Hx]; [lia|].
    assert (Hx2 : (h2 !!! l) !! j = Some x).
    { rewrite Hrow, lookup_app_r; rewrite length_imap, length_take; [|lia].
      rewrite lookup_drop, <- Hx. f_equal. lia. }
    rewrite (decode_cell_run lr g num_c r j h2 l x) by done.
    eexists. split; [reflexivity|].
    assert (Hnew : <[j := decode lr num_c r j x]> (h2 !!! l)
                   = imap (decode lr num_c r) (take (S j) row) ++ drop (S j) row).
    { rewrite Hrow. by apply decode_prefix_step. }
    unfold decode in Hnew at 1. destruct (is_unknown x).
    + split.
      * intros l' Hne. rewrite lookup_total_insert_ne by done. by apply Hother.
      * by rewrite lookup_total_insert_eq.
    + split; [done|]. by rewrite <- Hnew, list_insert_id.
  - exists h2. split_and!; [done..|].
    rewrite Hrow, take_ge, drop_ge by lia. by rewrite app_nil_r.
Qed.

Lemma outer_loop_marks :
  ∃ h', ouput_for_pysat lr g (num_r, num_c) h = Ok (g, h')
        ∧ ∀ r l, g !! r = Some l → h' !!! l = decode_row lr num_c r (h !!! l).
Proof.
  unfold ouput_for_pysat.
  assert (Hlen : length g = Z.to_nat num_r).
  { destruct Hshape as [Hlen _]. unfold grid_of in Hlen.
    rewrite length_map in Hlen. simpl in Hlen. lia. }
  destruct (for_each_range_invariant
              (fun i h2 => (∀ l', l' ∉ take i g → h2 !!! l' = h !!! l')
                 ∧ ∀ r l, (r < i)%nat → g !! r = Some l →
                          h2 !!! l = decode_row lr num_c r (h !!! l))
              (fun h2 r => for_each (range 0 num_c) (decode_cell lr g num_c r) h2)
              num_r h)
    as (h' & Hrun & _ & Hall).
  - split; [done|]. intros; lia.
  - intros i h2 Hi [Hrest Hdone].
    destruct (shaped_row _ _ _ _ Hshape Hi) as (l & Hl & Hcols). simpl in Hcols.
    assert (Hfresh : l ∉ take i g).
    { intros (i' & Hl' & Hlt)%elem_of_take.
      pose proof (NoDup_lookup _ _ _ _ Hrows Hl Hl'). lia. }
    destruct (inner_loop_marks i l h2 Hl) as (h3 & Hrun & Hother & Hrow).
    { by rewrite Hrest. }
    exists h3. split; [done|]. split.
    + intros l' Hl'. rewrite (take_S_r _ _ _ Hl) in Hl'.
      apply not_elem_of_app in Hl' as [Hl1 Hl2%not_elem_of_cons].
      rewrite Hother by tauto. by apply Hrest.
    + intros r l' Hr Hl'. destruct (decide (r = i)) as [->|Hne].
      * simplify_eq. by rewrite Hrow, Hrest.
      * rewrite Hother; [apply Hdone; [lia|done]|].
        intros ->. pose proof (NoDup_lookup _ _ _ _ Hrows Hl Hl'). lia.
  - exists h'. rewrite Hrun. split; [done|].
    intros r l Hl. apply Hall; [|done]. apply lookup_lt_Some in Hl. lia.
Qed.
End Marks.

Lemma mark_mine lr num_c r c :
  mark lr num_c r c = Mine ↔ ∃ v, lr !! Z.to_nat (r * num_c + c) = Some v ∧ 0 < v.
Proof.
  unfold mark. destruct (lr !! _) as [v|].
  - destruct (Z.gtb_spec v 0); split; try done.
    + intros _. exists v. split; [done|lia].
    + intros (v' & [= <-] & Hv). lia.
  - split; [done|]. by intros (v & ? & _).
Qed.

(** C4: on a grid whose dimensions are those of [size] and whose rows are
    distinct objects, the decoder returns, and a cell that held the unknown
    marker at row [r], column [c] then holds 'T' if [r*cols + c] is a valid
    index of the assignment and the value there is positive, and holds 'G'
    in every other case, a too short assignment included. *)
Theorem C4_decoder_marks_unknown (lr : list Z) (g : list loc) (sz : size) (h : store) :
  shaped (grid_of h g) sz → NoDup g →
  ∃ out h',
    ouput_for_pysat lr g sz h = Ok (out, h')
    ∧ ∀ r c,
        in_bounds (r, c) sz = true →
        cell_at (grid_of h g) (r, c) = Some Unknown →
        ∃ m, cell_at (grid_of h' out) (r, c) = Some m
             ∧ (m = Mine ∨ m = Safe)
             ∧ (m = Mine ↔ ∃ v, lr !! Z.to_nat (r * sz.2 + c) = Some v ∧ 0 < v).
Proof.
  destruct sz as [num_r num_c]. intros Hshape Hrows.
  destruct (outer_loop_marks lr g num_r num_c h Hshape Hrows) as (h' & Hrun & Hall).
  exists g, h'. split; [done|].
  intros r c [Hr Hc]%in_bounds_spec. rewrite !cell_at_grid_of. simpl.
  destruct (g !! Z.to_nat r) as [l|] eqn:Hl; simpl; [|done]. intros Hx.
  exists (mark lr num_c r c). split_and!.
  - rewrite (Hall _ _ Hl). unfold decode_row. rewrite list_lookup_imap, Hx. simpl.
    unfold decode. simpl. by rewrite !Z2Nat.id by lia.
  - apply mark_cases.
  - apply mark_mine.
Qed.

Lemma C4_decoder_marks_unknown_witness :
  ∃ out h',
    ouput_for_pysat [1; -2; 3] [1%positive; 2%positive] (2, 2)
      {[ 1%positive := [Unknown; Unknown]; 2%positive := [Hint 1; Unknown] ]}
    = Ok (out, h')
    ∧ cell_at (grid_of h' out) (0, 0) = Some Mine
    ∧ cell_at (grid_of h' out) (0, 1) = Some Safe
    ∧ cell_at (grid_of h' out) (1, 1) = Some Safe.
Proof.
  destruct (C4_decoder_marks_unknown [1; -2; 3] [1%positive; 2%positive] (2, 2)
              {[ 1%positive := [Unknown; Unknown]; 2%positive := [Hint 1; Unknown] ]})
    as (out & h' & Hrun & Hcells).
  - split; [reflexivity|]. repeat constructor.
  - apply (bool_decide_unpack _). by vm_compute.
  - exists out, h'. split; [exact Hrun|].
    injection Hrun as <- <-. split_and!; reflexivity.
Defined.

(** The decoder hands back the row objects it was given. *)
Lemma ouput_for_pysat_same_rows lr (g : list loc) sz (h : store) out h' :
  ouput_for_pysat lr g sz h = Ok (out, h') → out = g.
Proof.
  destruct sz as [num_r num_c]. unfold ouput_for_pysat.
  destruct (for_each _ _ _); simpl; [|done]. by intros [= <- _].
Qed.

(** Every unknown cell of the caller's grid is overwritten by the call:
    read through the rows the caller still holds, it is unknown no more. *)
Lemma input_grid_unknowns_overwritten lr (g : list loc) sz (h : store) pos :
  shaped (grid_of h g) sz → in_bounds pos sz = true →
  cell_at (grid_of h g) pos = Some Unknown →
  ∃ out h',
    ouput_for_pysat lr g sz h = Ok (out, h')
    ∧ cell_at (grid_of h' g) pos ≠ Some Unknown
    ∧ grid_of h' g ≠ grid_of h g.
Proof.
  destruct sz as [num_r num_c], pos as [r c]. intros Hshape Hin Hx.
  destruct (outer_loop_frame lr g num_r num_c h Hshape) as (h' & Hrun & Hev & Hknown).
  exists g, h'. split; [done|].
  assert (Hnew : cell_at (grid_of h' g) (r, c) ≠ Some Unknown).
  { apply in_bounds_spec in Hin as [Hr Hc]. rewrite cell_at_grid_of in Hx |- *.
    simpl in *. destruct (g !! Z.to_nat r) as [l|] eqn:Hl; simpl in *; [|done].
    intros Hy. specialize (Hknown (Z.to_nat r) l ltac:(lia) Hl).
    rewrite Forall_forall in Hknown.
    by eapply Hknown; [eapply list_elem_of_lookup_2|]. }
  split; [done|]. intros Heq. by rewrite Heq in Hnew.
Qed.

(** C9, at the one-cell grid ['_'] and the assignment [1]: the decoder
    returns the very row object it was given, and after the call the
    caller's grid reads 'T' where it read '_' before. *)
Theorem C9_input_grid_is_overwritten :
  ∃ out h',
    ouput_for_pysat [1] [1%positive] (1, 1) {[ 1%positive := [Unknown] ]} = Ok (out, h')
    ∧ out = [1%positive]
    ∧ grid_of {[ 1%positive := [Unknown] ]} [1%positive] = [[Unknown]]
    ∧ grid_of h' [1%positive] = [[Mine]].
Proof.
  eexists _, _. split; [reflexivity|]. split_and!; reflexivity.
Qed.

(** * Further properties *)

(** ** [is_valid] *)

(** X1: [is_valid] answers False outside [size] without reading the grid,
    answers whether the cell is the unknown marker at a position the grid
    has, and raises IndexError at a position inside [size] that the grid
    does not have. *)
Theorem is_valid_outcome (pos : position) (g : grid) (sz : size) :
  is_valid pos g sz
  = if in_bounds pos sz
    then match cell_at g pos with
         | Some x => Ok (is_unknown x)
         | None => Raise IndexError
         end
    else Ok false.
Proof.
  destruct pos as [r c], sz as [num_r num_c]. unfold is_valid.
  change ((0 <=? r) && (r <? num_r) && ((0 <=? c) && (c <? num_c)))
    with (in_bounds (r, c) (num_r, num_c)).
  destruct (in_bounds _ _) eqn:Hin; [|done].
  apply in_bounds_spec in Hin as [Hr Hc]. unfold cell_at. simpl.
  rewrite (getitem_nonneg g) by lia.
  destruct (g !! Z.to_nat r) as [row|]; simpl; [|done].
  rewrite (getitem_nonneg row) by lia. by destruct (row !! Z.to_nat c).
Qed.

(** ** The coordinate mapper, beyond the round trip *)

Lemma convert_to_flatten_row_major_aux (rows cols r1 c1 r2 c2 : Z) :
  0 ≤ c1 < cols → 0 ≤ c2 < cols → pos_lt (r1, c1) (r2, c2) →
  convert_to_flatten (r1, c1) (rows, cols) < convert_to_flatten (r2, c2) (rows, cols).
Proof.
  unfold convert_to_flatten, pos_lt. simpl. intros Hc1 Hc2 [Hlt|[-> Hlt]]; nia.
Qed.

(** X2: on in-bounds positions [convert_to_flatten] takes its values in
    1..rows*cols and follows the row-major order, so distinct positions get
    distinct variables and 0 is never a variable. *)
Theorem convert_to_flatten_row_major (rows cols r1 c1 r2 c2 : Z) :
  0 ≤ r1 < rows → 0 ≤ c1 < cols → 0 ≤ r2 < rows → 0 ≤ c2 < cols →
  1 ≤ convert_to_flatten (r1, c1) (rows, cols) ≤ rows * cols
  ∧ (convert_to_flatten (r1, c1) (rows, cols) < convert_to_flatten (r2, c2) (rows, cols)
     ↔ pos_lt (r1, c1) (r2, c2))
  ∧ (convert_to_flatten (r1, c1) (rows, cols) = convert_to_flatten (r2, c2) (rows, cols)
     ↔ (r1, c1) = (r2, c2)).
Proof.
  intros Hr1 Hc1 Hr2 Hc2. unfold convert_to_flatten, pos_lt. simpl.
  split; [nia|]. split.
  - split.
    + intros Hlt. destruct (decide (r1 < r2)); [by left|right]. nia.
    + intros [Hlt|[-> Hlt]]; nia.
  - split.
    + intros Heq. assert (r1 = r2) by nia. subst. f_equal. lia.
    + by intros [= -> ->].
Qed.

Lemma convert_to_flatten_row_major_witness :
  1 ≤ convert_to_flatten (1, 2) (3, 4) ≤ 3 * 4
  ∧ (convert_to_flatten (1, 2) (3, 4) < convert_to_flatten (2, 0) (3, 4)
     ↔ pos_lt (1, 2) (2, 0)).
Proof.
  destruct (convert_to_flatten_row_major 3 4 1 2 2 0
              ltac:(lia) ltac:(lia) ltac:(lia) ltac:(lia)) as (H1 & H2 & _).
  split; [exact H1|exact H2].
Defined.

(** X3: [convert_to_2D] raises ZeroDivisionError exactly when the size has
    no column; otherwise it returns for every integer, its result maps back
    to that integer under [convert_to_flatten], and with a positive number
    of columns the column is in range and the row is in range exactly for
    the integers 1..rows*cols. *)
Theorem convert_to_2D_outcome (flat rows cols : Z) :
  (cols = 0 → convert_to_2D flat (rows, cols) = Raise ZeroDivisionError)
  ∧ (cols ≠ 0 →
     ∃ r c, convert_to_2D flat (rows, cols) = Ok (r, c)
            ∧ convert_to_flatten (r, c) (rows, cols) = flat
            ∧ (0 < cols → 0 ≤ c < cols ∧ (0 ≤ r < rows ↔ 1 ≤ flat ≤ rows * cols))).
Proof.
  unfold convert_to_2D, pymod, floordiv. split.
  - intros ->. reflexivity.
  - intros Hne. destruct (Z.eqb_spec cols 0) as [|_]; [done|].
    eexists _, _. split; [reflexivity|].
    pose proof (Z.div_mod (flat - 1) cols Hne) as Hdm.
    unfold convert_to_flatten. split; [lia|]. intros Hpos.
    pose proof (Z.mod_pos_bound (flat - 1) cols Hpos) as Hm.
    split; [done|]. split.
    + intros Hr. nia.
    + intros Hf. split.
      * apply Z.div_pos; lia.
      * apply Z.div_lt_upper_bound; lia.
Qed.

Lemma convert_to_2D_outcome_witness :
  convert_to_2D 7 (3, 0) = Raise ZeroDivisionError
  ∧ ∃ r c, convert_to_2D 7 (3, 4) = Ok (r, c)
           ∧ convert_to_flatten (r, c) (3, 4) = 7
           ∧ 0 ≤ c < 4.
Proof.
  split.
  - apply (convert_to_2D_outcome 7 3 0). reflexivity.
  - destruct (convert_to_2D_outcome 7 3 4) as [_ H].
    destruct (H ltac:(lia)) as (r & c & Hrun & Hback & Hrange).
    exists r, c. split; [exact Hrun|]. split; [exact Hback|].
    apply Hrange. lia.
Defined.

(** ** The neighbourhood, beyond its in-bounds filter *)

Lemma offsets_sorted : StronglySorted pos_lt offsets.
Proof.
  unfold offsets.
  repeat first
    [ apply SSorted_nil
    | apply SSorted_cons
    | match goal with |- Forall _ _ => constructor end ];
    unfold pos_lt; simpl; lia.
Qed.

Lemma StronglySorted_map_mono {A B} (R : relation A) (R' : relation B)
    (f : A → B) (l : list A) :
  (∀ x y, x ∈ l → y ∈ l → R x y → R' (f x) (f y)) →
  StronglySorted R l → StronglySorted R' (map f l).
Proof.
  intros Hmono Hl. induction Hl as [|x l Hl IH Hx]; simpl; [constructor|].
  constructor.
  - apply IH. intros y z Hy Hz. apply Hmono; by right.
  - apply Forall_forall. intros y' Hy'%list_elem_of_In.
    apply in_map_iff in Hy' as (y & <- & Hy%list_elem_of_In).
    rewrite Forall_forall in Hx. apply Hmono; [left|by right|by apply Hx].
Qed.

Lemma StronglySorted_List_filter {A} (R : relation A) (p : A → bool) (l : list A) :
  StronglySorted R l → StronglySorted R (List.filter p l).
Proof.
  induction 1 as [|x l Hl IH Hx]; simpl; [constructor|].
  destruct (p x); [|done]. constructor; [done|].
  apply Forall_forall. intros y Hy%list_elem_of_In. apply List.filter_In in Hy as [Hy _].
  rewrite Forall_forall in Hx. by apply Hx, list_elem_of_In.
Qed.

Lemma generate_around_sorted pos sz : StronglySorted pos_lt (generate_around pos sz).
Proof.
  destruct pos as [r c]. rewrite generate_around_offsets.
  apply StronglySorted_List_filter.
  apply (StronglySorted_map_mono pos_lt); [|apply offsets_sorted].
  intros [i1 j1] [i2 j2] _ _. unfold pos_lt. simpl. lia.
Qed.

Lemma generate_around_length pos sz : (length (generate_around pos sz) ≤ 9)%nat.
Proof.
  destruct pos as [r c]. rewrite generate_around_offsets.
  etrans; [apply List.filter_length_le|]. by rewrite length_map.
Qed.

(** X4: [generate_around] yields at most nine positions, in strictly
    increasing row-major order (so none twice), each at most one row and
    one column away from the centre; it yields all nine exactly when the
    centre has a full ring of cells around it, and nothing when the size
    has no row or no column. *)
Theorem generate_around_shape (r c : Z) (sz : size) :
  (length (generate_around (r, c) sz) ≤ 9)%nat
  ∧ StronglySorted pos_lt (generate_around (r, c) sz)
  ∧ NoDup (generate_around (r, c) sz)
  ∧ Forall (fun p => r - 1 ≤ p.1 ≤ r + 1 ∧ c - 1 ≤ p.2 ≤ c + 1) (generate_around (r, c) sz)
  ∧ (length (generate_around (r, c) sz) = 9%nat ↔ 1 ≤ r < sz.1 - 1 ∧ 1 ≤ c < sz.2 - 1)
  ∧ (sz.1 ≤ 0 ∨ sz.2 ≤ 0 → generate_around (r, c) sz = []).
Proof.
  split; [apply generate_around_length|].
  split; [apply generate_around_sorted|].
  split; [apply generate_around_NoDup|].
  rewrite generate_around_offsets. set (cand := map _ offsets).
  assert (Hcand : length cand = 9%nat) by (subst cand; by rewrite length_map).
  split_and!.
  - apply Forall_forall. intros p Hp%list_elem_of_In. apply List.filter_In in Hp as [Hp _].
    apply in_map_iff in Hp as ([i j] & <- & Hd). unfold offsets in Hd. simpl in *.
    repeat (destruct Hd as [[= <- <-]|Hd]; [lia|]). done.
  - rewrite <- Hcand. split.
    + intros Hlen%List.filter_length_forallb. rewrite forallb_forall in Hlen.
      destruct sz as [num_r num_c].
      assert (H1 : in_bounds (r + -1, c + -1) (num_r, num_c) = true).
      { apply Hlen. subst cand. apply in_map_iff. exists (-1, -1). split; [done|].
        unfold offsets. simpl. tauto. }
      assert (H2 : in_bounds (r + 1, c + 1) (num_r, num_c) = true).
      { apply Hlen. subst cand. apply in_map_iff. exists (1, 1). split; [done|].
        unfold offsets. simpl. tauto. }
      apply in_bounds_spec in H1, H2. simpl. lia.
    + intros [Hr Hc]. f_equal. apply List.forallb_filter_id, forallb_forall.
      intros p Hp. subst cand. apply in_map_iff in Hp as ([i j] & <- & Hd).
      destruct sz as [num_r num_c]. apply in_bounds_spec.
      unfold offsets in Hd. simpl in *.
      repeat (destruct Hd as [[= <- <-]|Hd]; [lia|]). done.
  - intros Hempty. destruct (List.filter _ cand) as [|p l] eqn:E; [done|].
    assert (Hp : In p (List.filter (fun p => in_bounds p sz) cand)) by (rewrite E; left; done).
    apply List.filter_In in Hp as [_ Hp]. destruct sz as [num_r num_c], p as [r' c'].
    apply in_bounds_spec in Hp. simpl in *. lia.
Qed.

Lemma generate_around_shape_witness :
  length (generate_around (1, 1) (3, 3)) = 9%nat ∧ generate_around (2, 2) (0, 5) = [].
Proof.
  split.
  - apply (generate_around_shape 1 1 (3, 3)). simpl. lia.
  - apply (generate_around_shape 2 2 (0, 5)). simpl. lia.
Defined.

(** ** The neighbour variables of [generate_CNF] *)

Lemma unknown_neighbours_length pos g sz :
  (length (unknown_neighbours pos g sz) ≤ 9)%nat.
Proof.
  unfold unknown_neighbours. etrans; [apply List.filter_length_le|].
  apply generate_around_length.
Qed.

(** A cell that is in bounds and not unknown is a neighbour of itself that
    the filter drops. *)
Lemma unknown_neighbours_without_centre pos g sz :
  in_bounds pos sz = true → cell_at g pos ≠ Some Unknown →
  (pos ∉ unknown_neighbours pos g sz) ∧ (length (unknown_neighbours pos g sz) ≤ 8)%nat.
Proof.
  intros Hin Hcell. unfold unknown_neighbours.
  assert (Hdrop : unknown_at g sz pos = false).
  { unfold unknown_at. rewrite Hin. simpl. by apply bool_decide_eq_false. }
  split.
  - intros [_ Hp]%list_elem_of_In%List.filter_In. congruence.
  - pose proof (List.filter_length (unknown_at g sz) (generate_around pos sz)) as Hsum.
    pose proof (generate_around_length pos sz) as Hnine.
    assert (Hcentre : In pos (List.filter (fun p => negb (unknown_at g sz p))
                                (generate_around pos sz))).
    { apply List.filter_In. split; [|by rewrite Hdrop].
      destruct pos as [r c]. rewrite generate_around_offsets. apply List.filter_In.
      split; [|done]. apply in_map_iff. exists (0, 0). simpl. split.
      - f_equal; lia.
      - unfold offsets. simpl. tauto. }
    destruct (List.filter (fun p => negb (unknown_at g sz p)) (generate_around pos sz));
      [done|]. simpl in Hsum. lia.
Qed.

(** X5: the list of neighbour variables that [generate_CNF] builds is
    strictly increasing, lies within 1..rows*cols and has at most nine
    entries; when the centre cell is in bounds and not unknown, its own
    variable is not in the list and the list has at most eight entries. *)
Theorem list_cells_of_shape (pos : position) (g : grid) (sz : size) (V : list Z) :
  list_cells_of pos g sz = Ok V →
  StronglySorted Z.lt V
  ∧ Forall (fun v => 1 ≤ v ≤ sz.1 * sz.2) V
  ∧ (length V ≤ 9)%nat
  ∧ (in_bounds pos sz = true → cell_at g pos ≠ Some Unknown →
     (convert_to_flatten pos sz ∉ V) ∧ (length V ≤ 8)%nat).
Proof.
  intros ->%list_cells_of_unknown_neighbours.
  assert (Hbounds : ∀ p, p ∈ unknown_neighbours pos g sz → in_bounds p sz = true)
    by apply unknown_neighbours_in_bounds.
  split_and!.
  - apply (StronglySorted_map_mono pos_lt).
    + intros [r1 c1] [r2 c2] H1%Hbounds H2%Hbounds Hlt. destruct sz as [rows cols].
      apply in_bounds_spec in H1 as [? ?], H2 as [? ?].
      by apply convert_to_flatten_row_major_aux.
    + apply StronglySorted_List_filter, generate_around_sorted.
  - apply Forall_forall. intros v Hv%list_elem_of_In.
    apply in_map_iff in Hv as ([r c] & <- & Hp%list_elem_of_In%Hbounds).
    destruct sz as [rows cols]. apply in_bounds_spec in Hp. unfold convert_to_flatten.
    simpl. nia.
  - rewrite length_map. apply unknown_neighbours_length.
  - intros Hin Hcell.
    destruct (unknown_neighbours_without_centre pos g sz Hin Hcell) as [Hnot Hlen].
    split; [|by rewrite length_map].
    intros Hv%list_elem_of_In. apply in_map_iff in Hv as (p & Heq & Hp%list_elem_of_In).
    pose proof (Hbounds p Hp) as Hpin.
    destruct p as [r1 c1], pos as [r2 c2], sz as [rows cols].
    apply in_bounds_spec in Hpin as [? ?], Hin as [? ?].
    apply convert_to_flatten_inj in Heq; [|lia..]. by rewrite Heq in Hp.
Qed.

Lemma list_cells_of_shape_witness :
  StronglySorted Z.lt [2; 3] ∧ (convert_to_flatten (1, 1) (3, 3) ∉ [2; 3]).
Proof.
  destruct (list_cells_of_shape (1, 1)
              [[Hint 1; Unknown; Unknown]; [Hint 0; Hint 1; Hint 1]; [Hint 0; Hint 0; Hint 0]]
              (3, 3) [2; 3] eq_refl) as (Hsorted & _ & _ & Hcentre).
  split; [exact Hsorted|]. apply Hcentre; [reflexivity|]. discriminate.
Defined.

(** ** What [generate_CNF] returns and when it raises *)

Lemma generate_CNF_hint_negative pos g sz row h V :
  getitem g pos.1 = Ok row → getitem row pos.2 = Ok (Hint h) →
  list_cells_of pos g sz = Ok V →
  h < -1 →
  generate_CNF pos g sz = Raise ValueError.
Proof.
  intros Hrow Hcell HV Hh.
  rewrite (generate_CNF_hint _ _ _ _ _ _ Hrow Hcell HV).
  by rewrite (list_combination_negative _ (h + 1)) by lia.
Qed.




Lemma subsequences_length {A} (pool c : list A) r :
  c ∈ subsequences pool r → length c = r.
Proof. by intros [_ ?]%elem_of_subsequences. Qed.

Lemma subsequences_1 {A} (pool : list A) :
  subsequences pool 1 = map (fun x => [x]) pool.
Proof.
  induction pool as [|x pool IH]; [done|].
  rewrite subsequences_cons, subsequences_0, IH. reflexivity.
Qed.

(** X7: for a hint [h] with [m] unknown neighbours and -1 <= h <= m+1,
    the clause list is C(m, h+1) clauses of h+1 negative literals each,
    followed by C(m, m-h+1) clauses of m-h+1 positive literals each. *)
Theorem generate_CNF_clause_count (pos : position) (g : grid) (sz : size)
    (h : Z) (V : list Z) :
  in_bounds pos sz = true →
  cell_at g pos = Some (Hint h) →
  list_cells_of pos g sz = Ok V →
  -1 ≤ h ≤ Z.of_nat (length V) + 1 →
  ∃ upper lower,
    generate_CNF pos g sz = Ok (upper ++ lower)
    ∧ length upper = binom (length V) (Z.to_nat (h + 1))
    ∧ length lower = binom (length V) (Z.to_nat (Z.of_nat (length V) - h + 1))
    ∧ Forall (fun cl => Z.of_nat (length cl) = h + 1 ∧ Forall (fun l => l < 0) cl) upper
    ∧ Forall (fun cl => Z.of_nat (length cl) = Z.of_nat (length V) - h + 1
                        ∧ Forall (fun l => 0 < l) cl) lower.
Proof.
  intros Hin Hcell HV Hh.
  assert (Hpos : Forall (fun v => 0 < v) V).
  { rewrite (list_cells_of_unknown_neighbours _ _ _ _ HV).
    apply neighbour_variables_positive. }
  destruct pos as [r c], sz as [num_r num_c].
  apply in_bounds_spec in Hin as [Hr Hc].
  apply getitem_cell_at in Hcell as (row & Hrow & Hx); simpl; [|lia..].
  eexists _, _. split; [by eapply generate_CNF_selections|].
  rewrite length_map, !length_subsequences. split; [done|]. split; [done|].
  assert (Hsel : ∀ k cl, cl ∈ subsequences V k →
                         length cl = k ∧ Forall (fun v => 0 < v) cl).
  { intros k cl [Hsub Hlen]%elem_of_subsequences. split; [done|].
    apply Forall_forall. intros v Hv. rewrite Forall_forall in Hpos.
    by apply Hpos, (sublist_subseteq _ _ Hsub). }
  split.
  - apply Forall_forall. intros cl Hcl%list_elem_of_In.
    apply in_map_iff in Hcl as (sel & <- & Hsel'%list_elem_of_In).
    destruct (Hsel _ _ Hsel') as [Hlen Hp]. rewrite length_map. split; [lia|].
    apply Forall_forall. intros l Hl%list_elem_of_In.
    apply in_map_iff in Hl as (v & <- & Hv%list_elem_of_In).
    rewrite Forall_forall in Hp. specialize (Hp v Hv). lia.
  - apply Forall_forall. intros cl Hcl. destruct (Hsel _ _ Hcl) as [Hlen Hp].
    split; [lia|done].
Qed.

Lemma generate_CNF_clause_count_witness :
  ∃ upper lower,
    generate_CNF (0, 0) [[Hint 1; Unknown]; [Unknown; Unknown]] (2, 2) = Ok (upper ++ lower)
    ∧ length upper = 3%nat ∧ length lower = 1%nat.
Proof.
  destruct (generate_CNF_clause_count (0, 0) [[Hint 1; Unknown]; [Unknown; Unknown]]
              (2, 2) 1 [2; 3; 4]) as (upper & lower & Hrun & Hu & Hl & _).
  - reflexivity.
  - reflexivity.
  - reflexivity.
  - simpl. lia.
  - exists upper, lower. split; [exact Hrun|]. split; [exact Hu|exact Hl].
Defined.

(** X8: every literal of every clause that [generate_CNF] returns is, up
    to sign, the variable of an unknown neighbour of the position; so it is
    never 0 and its variable lies within 1..rows*cols. *)
Theorem generate_CNF_literals (pos : position) (g : grid) (sz : size)
    (cls : list clause) :
  generate_CNF pos g sz = Ok cls →
  Forall (Forall (fun l =>
            l ≠ 0 ∧ 1 ≤ Z.abs l ≤ sz.1 * sz.2
            ∧ ∃ p, p ∈ unknown_neighbours pos g sz
                   ∧ Z.abs l = convert_to_flatten p sz)) cls.
Proof.
  intros [->|(V & first_comb & second_comb & HV & H1 & H2 & ->)]%generate_CNF_inv;
    [constructor|].
  pose proof (list_cells_of_unknown_neighbours _ _ _ _ HV) as HVeq.
  assert (Hvar : ∀ v, v ∈ V →
            0 < v ∧ v ≤ sz.1 * sz.2
            ∧ ∃ p, p ∈ unknown_neighbours pos g sz ∧ v = convert_to_flatten p sz).
  { intros v Hv. rewrite HVeq in Hv. apply list_elem_of_In, in_map_iff in Hv
      as ([r c] & <- & Hp%list_elem_of_In).
    pose proof (unknown_neighbours_in_bounds _ _ _ _ Hp) as Hin.
    destruct sz as [rows cols]. apply in_bounds_spec in Hin.
    split_and!; [unfold convert_to_flatten; simpl; nia..|]. by exists (r, c). }
  assert (Hsel : ∀ comb i, comb `sublist_of` seqZ 1 (Z.of_nat (length V)) →
                           i ∈ comb → nth_var V i ∈ V).
  { intros comb i Hsub%selection_sublist Hi.
    apply (sublist_subseteq _ _ Hsub), list_elem_of_In, in_map, list_elem_of_In, Hi. }
  apply Forall_app. split; apply Forall_forall; intros cl Hcl%list_elem_of_In;
    apply in_map_iff in Hcl as (comb & <- & Hcomb%list_elem_of_In);
    apply Forall_forall; intros l Hl%list_elem_of_In;
    apply in_map_iff in Hl as (i & <- & Hi%list_elem_of_In).
  - rewrite Forall_forall in H1.
    destruct (Hvar _ (Hsel comb i (H1 comb Hcomb) Hi)) as (Hp & Hle & p & Hpn & Heq).
    split_and!; [lia..|]. exists p. split; [done|]. lia.
  - rewrite Forall_forall in H2.
    destruct (Hvar _ (Hsel comb i (H2 comb Hcomb) Hi)) as (Hp & Hle & p & Hpn & Heq).
    split_and!; [lia..|]. exists p. split; [done|]. lia.
Qed.

Lemma generate_CNF_literals_witness :
  Forall (Forall (fun l => l ≠ 0 ∧ 1 ≤ Z.abs l ≤ 3 * 3)) [[-2; -3]; [2; 3]].
Proof.
  pose proof (generate_CNF_literals (1, 1)
                [[Hint 1; Unknown; Unknown]; [Hint 0; Hint 1; Hint 1]; [Hint 0; Hint 0; Hint 0]]
                (3, 3) [[-2; -3]; [2; 3]] eq_refl) as H.
  eapply Forall_impl; [exact H|]. intros cl Hcl.
  eapply Forall_impl; [exact Hcl|]. intros l (Hne & Hrange & _). split; assumption.
Defined.

(** X9: a hint 0 yields one unit clause per unknown neighbour, each
    denying that neighbour; a hint equal to the number of unknown
    neighbours yields one unit clause per neighbour, each asserting it. *)
Theorem generate_CNF_forced (pos : position) (g : grid) (sz : size) (h : Z) (V : list Z) :
  in_bounds pos sz = true →
  cell_at g pos = Some (Hint h) →
  list_cells_of pos g sz = Ok V →
  (h = 0 → generate_CNF pos g sz = Ok (map (fun v => [- v]) V))
  ∧ (h = Z.of_nat (length V) → generate_CNF pos g sz = Ok (map (fun v => [v]) V)).
Proof.
  intros Hin Hcell HV. destruct pos as [r c], sz as [num_r num_c].
  apply in_bounds_spec in Hin as [Hr Hc].
  apply getitem_cell_at in Hcell as (row & Hrow & Hx); simpl; [|lia..].
  split; intros ->.
  - rewrite (generate_CNF_selections _ _ _ _ _ _ Hrow Hx HV) by lia.
    rewrite (subsequences_too_long V (Z.to_nat (_ - 0 + 1))) by lia.
    change (Z.to_nat (0 + 1)) with 1%nat.
    by rewrite subsequences_1, map_map, app_nil_r.
  - rewrite (generate_CNF_selections _ _ _ _ _ _ Hrow Hx HV) by lia.
    rewrite (subsequences_too_long V (Z.to_nat (_ + 1))) by lia.
    replace (Z.to_nat (_ - _ + 1)) with 1%nat by lia.
    by rewrite subsequences_1.
Qed.

Lemma generate_CNF_forced_witness :
  generate_CNF (0, 0) [[Hint 0; Unknown]; [Unknown; Unknown]] (2, 2)
  = Ok [[-2]; [-3]; [-4]].
Proof.
  apply (generate_CNF_forced (0, 0) [[Hint 0; Unknown]; [Unknown; Unknown]] (2, 2) 0
           [2; 3; 4]); reflexivity.
Defined.

(** ** The models of the assembled formula *)

Lemma mapM_Ok_inv {A B} (f : A → result B) (xs : list A) (ys : list B) :
  mapM f xs = Ok ys → Forall2 (fun x y => f x = Ok y) xs ys.
Proof.
  revert ys. induction xs as [|x xs IH]; intros ys; simpl.
  - intros [= <-]. constructor.
  - destruct (f x) as [y|e] eqn:Hx; simpl; [|done].
    destruct (mapM f xs) as [ys'|e]; simpl; [|done].
    intros [= <-]. constructor; [done|by apply IH].
Qed.


(** The two loops of [solve_by_pysat] visit the positions in row-major
    order and feed the per-cell clause lists to the formula one by one. *)
Lemma solve_by_pysat_cnf_per_cell g sz :
  solve_by_pysat_cnf g sz
  = (per_cell ← mapM (fun p => generate_CNF p g sz) (positions sz);
     Ok (fold_left CNF_extend per_cell CNF_new)).
Proof.
  destruct sz as [num_r num_c]. unfold solve_by_pysat_cnf, positions, range.
  simpl fst; simpl snd. rewrite !Z.sub_0_r.
  rewrite (for_each_ext _
             (fun acc r => ys ← mapM (fun c => generate_CNF (r, c) g (num_r, num_c))
                                  (seqZ 0 num_c);
                           Ok (acc ++ ys))).
  2:{ intros acc r.
      rewrite (for_each_collect (fun c => generate_CNF (r, c) g (num_r, num_c))
                 (fun cls => cls)).
      destruct (mapM _ _); simpl; [|done]. by rewrite map_id. }
  rewrite for_each_collect_batches, mapM_flat_map.
  rewrite (mapM_pointwise
             (fun r => mapM (fun p => generate_CNF p g (num_r, num_c))
                         (map (fun c => (r, c)) (seqZ 0 num_c)))
             (fun r => mapM (fun c => generate_CNF (r, c) g (num_r, num_c))
                         (seqZ 0 num_c)))
    by (intros r; apply mapM_map).
  by destruct (mapM _ (seqZ 0 num_r)) as [yss|e].
Qed.

Lemma elem_of_positions p sz : p ∈ positions sz ↔ in_bounds p sz = true.
Proof.
  destruct p as [r c], sz as [num_r num_c]. rewrite in_bounds_spec.
  unfold positions. simpl. rewrite list_elem_of_In, in_flat_map. split.
  - intros (r' & Hr%list_elem_of_In%elem_of_seqZ & Hc).
    apply in_map_iff in Hc as (c' & [= <- <-] & Hc%list_elem_of_In%elem_of_seqZ). lia.
  - intros [Hr Hc]. exists r. split.
    + apply list_elem_of_In, elem_of_seqZ. lia.
    + apply in_map_iff. exists c. split; [done|].
      apply list_elem_of_In, elem_of_seqZ. lia.
Qed.

Lemma formula_true_concat a (per_cell : list (list clause)) :
  formula_true a (concat per_cell) = true
  ↔ Forall (fun cls => formula_true a cls = true) per_cell.
Proof.
  induction per_cell as [|cls per_cell IH]; simpl.
  - split; [constructor|done].
  - unfold formula_true in *. rewrite forallb_app, andb_true_iff, IH.
    split; [intros [? ?]; by constructor|by inversion 1].
Qed.

Lemma count_true_bounds a V : 0 ≤ count_true a V ≤ Z.of_nat (length V).
Proof.
  unfold count_true. pose proof (List.filter_length_le a V). lia.
Qed.

(** A hint with which [generate_CNF] returns is matched by exactly the
    assignments that make that many neighbour variables true. *)
Lemma generate_CNF_models pos g sz row h V cls a :
  getitem g pos.1 = Ok row → getitem row pos.2 = Ok (Hint h) →
  list_cells_of pos g sz = Ok V →
  generate_CNF pos g sz = Ok cls →
  formula_true a cls = true ↔ count_true a V = h.
Proof.
  intros Hrow Hcell HV Hrun.
  assert (Hpos : Forall (fun v => 0 < v) V).
  { rewrite (list_cells_of_unknown_neighbours _ _ _ _ HV).
    apply neighbour_variables_positive. }
  pose proof (count_true_bounds a V) as Hcount.
  destruct (decide (h < -1)) as [Hneg|Hge].
  { by rewrite (generate_CNF_hint_negative _ _ _ _ _ _ Hrow Hcell HV Hneg) in Hrun. }
  destruct (decide (Z.of_nat (length V) + 1 < h)) as [Hbig|Hle].
  { by rewrite (generate_CNF_hint_too_large _ _ _ _ _ _ Hrow Hcell HV Hbig) in Hrun. }
  rewrite (generate_CNF_selections _ _ _ _ _ _ Hrow Hcell HV) in Hrun by lia.
  injection Hrun as <-.
  unfold formula_true. rewrite forallb_app, andb_true_iff.
  fold (formula_true a (map (map Z.opp) (subsequences V (Z.to_nat (h + 1))))).
  fold (formula_true a (subsequences V (Z.to_nat (Z.of_nat (length V) - h + 1)))).
  destruct (decide (h = -1)) as [->|Hh1].
  { simpl (Z.to_nat _). rewrite subsequences_0. simpl. split; [by intros [? _]|lia]. }
  destruct (decide (h = Z.of_nat (length V) + 1)) as [->|Hh2].
  { replace (Z.to_nat (_ - _ + 1)) with 0%nat by lia.
    rewrite subsequences_0. simpl. split; [by intros [_ ?]|lia]. }
  replace (Z.to_nat (h + 1)) with (S (Z.to_nat h)) by lia.
  replace (Z.to_nat (Z.of_nat (length V) - h + 1))
    with (S (Z.to_nat (Z.of_nat (length V) - h))) by lia.
  rewrite at_most_clauses, at_least_clauses by done. lia.
Qed.

(** What a returning call to [generate_CNF] says about its cell. *)
Lemma generate_CNF_Ok_cell r c g sz cls :
  0 ≤ r → 0 ≤ c →
  generate_CNF (r, c) g sz = Ok cls →
  ∃ row x, getitem g r = Ok row ∧ getitem row c = Ok x
           ∧ cell_at g (r, c) = Some x
           ∧ (x = Unknown ∧ cls = []
              ∨ ∃ h V, x = Hint h ∧ list_cells_of (r, c) g sz = Ok V).
Proof.
  intros Hr Hc Hrun. pose proof Hrun as Hrun'. unfold generate_CNF in Hrun'. simpl in Hrun'.
  destruct (getitem g r) as [row|] eqn:Hrow; [|done].
  cbn [mbind result_bind] in Hrun'.
  destruct (getitem row c) as [x|] eqn:Hx; [|done].
  cbn [mbind result_bind] in Hrun'.
  exists row, x. split; [done|]. split; [done|]. split.
  { apply getitem_cell_at; simpl; [lia..|]. eauto. }
  destruct x as [|h| |]; cbn [is_unknown] in Hrun'.
  - left. split; [done|]. by injection Hrun' as <-.
  - right. destruct (list_cells_of (r, c) g sz) as [V|] eqn:HV; [|done]. eauto.
  - destruct (list_cells_of (r, c) g sz) as [V|] eqn:HV; done.
  - destruct (list_cells_of (r, c) g sz) as [V|] eqn:HV; done.
Qed.

(** The per-cell clause lists, taken together, are satisfied by exactly
    the assignments that match every hint. *)
Lemma per_cell_models g sz per_cell a :
  mapM (fun p => generate_CNF p g sz) (positions sz) = Ok per_cell →
  formula_true a (concat per_cell) = true
  ↔ ∀ pos h, in_bounds pos sz = true → cell_at g pos = Some (Hint h) →
             count_true a (map (fun p => convert_to_flatten p sz)
                             (unknown_neighbours pos g sz)) = h.
Proof.
  intros Hcells%mapM_Ok_inv. rewrite formula_true_concat.
  assert (Hcell : ∀ p cls, in_bounds p sz = true → generate_CNF p g sz = Ok cls →
            formula_true a cls = true
            ↔ ∀ h, cell_at g p = Some (Hint h) →
                   count_true a (map (fun q => convert_to_flatten q sz)
                                   (unknown_neighbours p g sz)) = h).
  { intros [r c] cls Hin Hrun. destruct sz as [num_r num_c].
    apply in_bounds_spec in Hin as [Hr Hc].
    destruct (generate_CNF_Ok_cell r c g _ cls ltac:(lia) ltac:(lia) Hrun)
      as (row & x & Hrow & Hx & Hat & [[-> ->]|(h & V & -> & HV)]).
    - rewrite Hat. split; [by intros _ h [=]|done].
    - rewrite Hat, <- (list_cells_of_unknown_neighbours _ _ _ _ HV).
      rewrite (generate_CNF_models (r, c) g _ row h V cls a Hrow Hx HV Hrun).
      split; [by intros <- h' [= <-]|by intros H; apply H]. }
  split.
  - intros Hall pos h Hin Hhint.
    apply elem_of_positions, list_elem_of_lookup in Hin as [i Hi].
    destruct (Forall2_lookup_l _ _ _ _ _ Hcells Hi) as (cls & Hcls & Hrun).
    rewrite Forall_forall in Hall.
    apply (Hcell pos cls); [|done| |done].
    + by eapply elem_of_positions, list_elem_of_lookup_2.
    + by eapply Hall, list_elem_of_lookup_2.
  - intros Hhints. apply Forall_forall. intros cls [i Hi]%list_elem_of_lookup.
    destruct (Forall2_lookup_r _ _ _ _ _ Hcells Hi) as (pos & Hpos & Hrun).
    assert (Hin : in_bounds pos sz = true)
      by (by eapply elem_of_positions, list_elem_of_lookup_2).
    apply (Hcell pos cls Hin Hrun). intros h Hh. by apply Hhints.
Qed.

(** X10: when [solve_by_pysat] gets as far as the solver, the formula it
    hands over is satisfied by exactly the assignments under which, at
    every hint cell inside [size], the number of unknown neighbours whose
    variable is true equals the hint. *)
Theorem solve_by_pysat_cnf_models (g : grid) (sz : size) (cnf : CNF) :
  solve_by_pysat_cnf g sz = Ok cnf →
  ∀ a, formula_true a (clauses cnf) = true
       ↔ ∀ pos h, in_bounds pos sz = true → cell_at g pos = Some (Hint h) →
                  count_true a (map (fun p => convert_to_flatten p sz)
                                  (unknown_neighbours pos g sz)) = h.
Proof.
  rewrite solve_by_pysat_cnf_per_cell.
  destruct (mapM _ (positions sz)) as [per_cell|] eqn:Hcells; [|done].
  intros [= <-] a. rewrite clauses_fold_CNF_extend. simpl.
  by apply per_cell_models.
Qed.

Lemma solve_by_pysat_cnf_models_witness :
  formula_true (fun v => v =? 3) [[-2; -3]; [-2; -4]; [-3; -4]; [2; 3; 4]] = true
  ↔ ∀ pos h, in_bounds pos (2, 2) = true →
             cell_at [[Hint 1; Unknown]; [Unknown; Unknown]] pos = Some (Hint h) →
             count_true (fun v => v =? 3)
               (map (fun p => convert_to_flatten p (2, 2))
                  (unknown_neighbours pos [[Hint 1; Unknown]; [Unknown; Unknown]] (2, 2)))
             = h.
Proof.
  apply (solve_by_pysat_cnf_models [[Hint 1; Unknown]; [Unknown; Unknown]] (2, 2)
           (mkCNF 4 [[-2; -3]; [-2; -4]; [-3; -4]; [2; 3; 4]])).
  reflexivity.
Defined.

(** ** When the formula is built, and when it has no model *)





(** X12: a hint that is negative or larger than the number of its unknown
    neighbours leaves the formula, when it is built at all, without any
    model, so that the solver answers "unsatisfiable". *)
Theorem solve_by_pysat_cnf_contradiction (g : grid) (sz : size) (cnf : CNF)
    (pos : position) (h : Z) :
  solve_by_pysat_cnf g sz = Ok cnf →
  in_bounds pos sz = true → cell_at g pos = Some (Hint h) →
  h < 0 ∨ Z.of_nat (length (unknown_neighbours pos g sz)) < h →
  ∀ a, formula_true a (clauses cnf) = false.
Proof.
  rewrite solve_by_pysat_cnf_per_cell.
  destruct (mapM _ (positions sz)) as [per_cell|] eqn:Hcells; [|done].
  intros [= <-] Hin Hhint Hh a. rewrite clauses_fold_CNF_extend. simpl.
  apply mapM_Ok_inv in Hcells. apply not_true_is_false.
  intros Hall%formula_true_concat.
  pose proof Hin as Hpos. apply elem_of_positions, list_elem_of_lookup in Hpos as [i Hi].
  destruct (Forall2_lookup_l _ _ _ _ _ Hcells Hi) as (cls & Hcls & Hrun).
  rewrite Forall_forall in Hall. specialize (Hall cls (list_elem_of_lookup_2 _ _ _ Hcls)).
  destruct pos as [r c], sz as [num_r num_c]. apply in_bounds_spec in Hin as [Hr Hc].
  destruct (generate_CNF_Ok_cell r c g _ cls ltac:(lia) ltac:(lia) Hrun)
    as (row & x & Hrow & Hx & Hat & [[-> ->]|(h' & V & -> & HV)]); [congruence|].
  rewrite Hat in Hhint. injection Hhint as ->.
  apply (generate_CNF_models (r, c) g _ row h V cls a Hrow Hx HV Hrun) in Hall.
  pose proof (count_true_bounds a V) as Hcount.
  rewrite (list_cells_of_unknown_neighbours _ _ _ _ HV), length_map in Hcount.
  rewrite (list_cells_of_unknown_neighbours _ _ _ _ HV) in Hall. lia.
Qed.

Lemma solve_by_pysat_cnf_contradiction_witness :
  formula_true (fun _ => true) (clauses (mkCNF 0 [[]])) = false.
Proof.
  apply (solve_by_pysat_cnf_contradiction [[Hint 1]] (1, 1) (mkCNF 0 [[]]) (0, 0) 1).
  - reflexivity.
  - reflexivity.
  - reflexivity.
  - right. simpl. lia.
Defined.

Lemma fold_CNF_extend_empty {A} (xs : list A) f :
  fold_left CNF_extend (map (fun _ => []) xs) f = f.
Proof. induction xs as [|x xs IH]; [done|]. simpl. apply IH. Qed.

(** X13: a grid without any hint inside [size] (all cells unknown, or no
    cell at all) gives the empty formula: no clause and no variable. *)
Theorem solve_by_pysat_cnf_no_hint (g : grid) (sz : size) :
  (∀ pos, in_bounds pos sz = true → cell_at g pos = Some Unknown) →
  solve_by_pysat_cnf g sz = Ok CNF_new.
Proof.
  intros Hall. rewrite solve_by_pysat_cnf_per_cell.
  rewrite (mapM_Ok _ (fun _ => [])).
  - simpl. by rewrite fold_CNF_extend_empty.
  - apply Forall_forall. intros [r c] Hp%elem_of_positions.
    pose proof (Hall _ Hp) as Hcell. destruct sz as [num_r num_c].
    apply in_bounds_spec in Hp as [Hr Hc].
    apply getitem_cell_at in Hcell as (row & Hrow & Hx); simpl; [|lia..].
    by eapply generate_CNF_unknown.
Qed.

Lemma solve_by_pysat_cnf_no_hint_witness :
  solve_by_pysat_cnf [[Unknown; Unknown]] (1, 2) = Ok CNF_new.
Proof.
  apply solve_by_pysat_cnf_no_hint. intros [r c] Hin.
  apply in_bounds_spec in Hin as [Hr Hc].
  assert (r = 0) as -> by lia.
  assert (c = 0 ∨ c = 1) as [-> | ->] by lia; reflexivity.
Defined.

(** ** The decoder: what it leaves alone and when it raises *)

Lemma evolved_shaped (h h' : store) (g : list loc) sz :
  evolved h h' → shaped (grid_of h g) sz → shaped (grid_of h' g) sz.
Proof.
  intros Hev [Hrows Hcols]. unfold grid_of in *. split.
  - by rewrite length_map in *.
  - rewrite Forall_map in Hcols |- *.
    eapply Forall_impl; [exact Hcols|]. intros l Hl. simpl in *.
    by rewrite (evolved_length _ _ l Hev).
Qed.

(** With no unknown cell in the rows that [size] names, no iteration
    writes. *)
Lemma decode_known lr (g : list loc) num_r num_c (h : store) :
  shaped (grid_of h g) (num_r, num_c) →
  (∀ r l, Z.of_nat r < num_r → g !! r = Some l →
          Forall (fun y => y ≠ Unknown) (h !!! l)) →
  ouput_for_pysat lr g (num_r, num_c) h = Ok (g, h).
Proof.
  intros Hshape Hknown. unfold ouput_for_pysat.
  destruct (for_each_range_invariant (fun _ h2 => h2 = h)
              (fun h2 r => for_each (range 0 num_c) (decode_cell lr g num_c r) h2)
              num_r h) as (h' & Hrun & ->); [done| |by rewrite Hrun].
  intros i h2 Hi ->.
  destruct (shaped_row _ _ _ _ Hshape Hi) as (l & Hl & Hlen). simpl in Hlen.
  apply (for_each_range_invariant (fun _ h2 => h2 = h)); [done|].
  intros j h2 Hj ->.
  destruct (lookup_lt_is_Some_2 (h !!! l) j) as [x Hx]; [lia|].
  rewrite (decode_cell_run lr g num_c i j h l x) by done.
  eexists. split; [reflexivity|].
  specialize (Hknown i l Hi Hl). rewrite Forall_forall in Hknown.
  pose proof (Hknown x (list_elem_of_lookup_2 _ _ _ Hx)). by destruct x.
Qed.

(** X14: a grid that has no unknown cell inside [size] comes back with
    every row object exactly as it was, whatever the assignment says. *)
Theorem ouput_for_pysat_no_unknown (lr : list Z) (g : list loc) (sz : size) (h : store) :
  shaped (grid_of h g) sz →
  (∀ pos, in_bounds pos sz = true → cell_at (grid_of h g) pos ≠ Some Unknown) →
  ouput_for_pysat lr g sz h = Ok (g, h).
Proof.
  destruct sz as [num_r num_c]. intros Hshape Hknown.
  apply decode_known; [done|]. intros r l Hr Hl.
  destruct (shaped_row _ _ _ _ Hshape Hr) as (l' & Hl' & Hlen). simplify_eq. simpl in Hlen.
  apply Forall_forall. intros x [c Hc]%list_elem_of_lookup ->.
  apply (Hknown (Z.of_nat r, Z.of_nat c)).
  - apply in_bounds_spec. apply lookup_lt_Some in Hc. lia.
  - rewrite cell_at_grid_of. simpl. rewrite !Nat2Z.id, Hl. simpl. done.
Qed.

Lemma ouput_for_pysat_no_unknown_witness :
  ouput_for_pysat [1; 2] [1%positive] (1, 2) {[ 1%positive := [Hint 1; Mine] ]}
  = Ok ([1%positive], {[ 1%positive := [Hint 1; Mine] ]}).
Proof.
  apply ouput_for_pysat_no_unknown.
  - split; [reflexivity|]. repeat constructor.
  - intros [r c] Hin. apply in_bounds_spec in Hin as [Hr Hc].
    assert (r = 0) as -> by lia.
    assert (c = 0 ∨ c = 1) as [-> | ->] by lia; discriminate.
Defined.

(** X15: decoding is idempotent: after one call on a grid of the stated
    size, a second call on the same grid returns it unchanged, whatever
    assignment the second call is given. *)
Theorem ouput_for_pysat_twice (lr : list Z) (g : list loc) (sz : size) (h : store) :
  shaped (grid_of h g) sz →
  ∃ h', ouput_for_pysat lr g sz h = Ok (g, h')
        ∧ ∀ lr', ouput_for_pysat lr' g sz h' = Ok (g, h').
Proof.
  destruct sz as [num_r num_c]. intros Hshape.
  destruct (outer_loop_frame lr g num_r num_c h Hshape) as (h' & Hrun & Hev & Hknown).
  exists h'. split; [done|]. intros lr'.
  apply decode_known; [by eapply evolved_shaped|done].
Qed.

Lemma ouput_for_pysat_twice_witness :
  ∃ h', ouput_for_pysat [1; -2] [1%positive] (1, 2) {[ 1%positive := [Unknown; Unknown] ]}
        = Ok ([1%positive], h')
        ∧ ∀ lr', ouput_for_pysat lr' [1%positive] (1, 2) h' = Ok ([1%positive], h').
Proof.
  apply ouput_for_pysat_twice. split; [reflexivity|]. repeat constructor.
Defined.

(** *** Errors of the decoder *)

Lemma getitem_Raise {A} (l : list A) i e : getitem l i = Raise e → e = IndexError.
Proof.
  unfold getitem. destruct (_ && _); [|by intros [= <-]].
  destruct (l !! _); [done|by intros [= <-]].
Qed.

Lemma setitem_Raise {A} (l : list A) i x e : setitem l i x = Raise e → e = IndexError.
Proof. unfold setitem. destruct (_ && _); [done|by intros [= <-]]. Qed.

Lemma decode_cell_Raise lr (g : list loc) num_c r (h : store) c e :
  decode_cell lr g num_c r h c = Raise e → e = IndexError.
Proof.
  unfold decode_cell.
  destruct (getitem g r) as [l|e1] eqn:Hl; cbn [mbind result_bind];
    [|intros [= <-]; by eapply getitem_Raise].
  destruct (getitem (h !!! l) c) as [x|e1] eqn:Hx; cbn [mbind result_bind];
    [|intros [= <-]; by eapply getitem_Raise].
  destruct (negb (is_unknown x)); [done|].
  destruct (_ <? _).
  - destruct (getitem lr _) as [v|e1] eqn:Hv; cbn [mbind result_bind];
      [|intros [= <-]; by eapply getitem_Raise].
    destruct (setitem _ _ _) as [cells|e1] eqn:Hs; cbn [mbind result_bind];
      [done|intros [= <-]; by eapply setitem_Raise].
  - cbn [mbind result_bind].
    destruct (setitem _ _ _) as [cells|e1] eqn:Hs; cbn [mbind result_bind];
      [done|intros [= <-]; by eapply setitem_Raise].
Qed.

Lemma for_each_Raise {A S} (xs : list A) (body : S → A → result S) s e :
  for_each xs body s = Raise e → ∃ x s1, x ∈ xs ∧ body s1 x = Raise e.
Proof.
  revert s. induction xs as [|x xs IH]; intros s; [done|]. simpl.
  destruct (body s x) as [s'|e'] eqn:Hx; simpl.
  - intros (y & s1 & Hy & Hrun)%IH. exists y, s1. split; [by right|done].
  - intros [= <-]. exists x, s. split; [left|done].
Qed.

(** A loop that returns went through every item, each time from a state
    that satisfied what the body preserves. *)
Lemma for_each_Ok_visits {A S} (I : S → Prop) (xs : list A) (body : S → A → result S)
    s s' :
  I s →
  (∀ x s1 s2, x ∈ xs → I s1 → body s1 x = Ok s2 → I s2) →
  for_each xs body s = Ok s' →
  I s' ∧ ∀ x, x ∈ xs → ∃ s1 s2, I s1 ∧ body s1 x = Ok s2.
Proof.
  revert s. induction xs as [|x xs IH]; intros s Hs Hbody; simpl.
  - intros [= <-]. split; [done|]. by intros x ?%elem_of_nil.
  - destruct (body s x) as [s1|] eqn:Hx; simpl; [|done]. intros Hrun.
    destruct (IH s1) as [Hs' Hvisits]; [by eapply Hbody; [left|..]| |done|].
    { intros y t1 t2 Hy. apply Hbody. by right. }
    split; [done|]. intros y [->|Hy]%elem_of_cons; [eauto|by apply Hvisits].
Qed.

Lemma decode_cell_Ok lr (g : list loc) num_c r c (h h2 : store) :
  0 ≤ r → 0 ≤ c < num_c →
  decode_cell lr g num_c r h c = Ok h2 →
  ∃ l, g !! Z.to_nat r = Some l
       ∧ c < Z.of_nat (length (h !!! l))
       ∧ ∀ l', length (h2 !!! l') = length (h !!! l').
Proof.
  intros Hr Hc Hrun. pose proof Hrun as Hrun'. unfold decode_cell in Hrun'.
  destruct (getitem g r) as [l|] eqn:Hl; [|done]. cbn [mbind result_bind] in Hrun'.
  destruct (getitem (h !!! l) c) as [x|] eqn:Hx; [|done]. clear Hrun'.
  apply getitem_Ok_nonneg in Hl, Hx; [|lia..].
  exists l. split; [done|]. split; [apply lookup_lt_Some in Hx; lia|].
  rewrite <- (Z2Nat.id r), <- (Z2Nat.id c) in Hrun by lia.
  rewrite (decode_cell_run lr g num_c _ _ h l x) in Hrun by (done || lia).
  injection Hrun as <-. intros l'. destruct (is_unknown x); [|done].
  rewrite lookup_total_insert. destruct (decide (l = l')) as [<-|]; [|done].
  by rewrite length_insert.
Qed.

Lemma elem_of_range x n : x ∈ range 0 n ↔ 0 ≤ x < n.
Proof. unfold range. rewrite elem_of_seqZ. lia. Qed.

Lemma range_empty n : n ≤ 0 → range 0 n = [].
Proof. intros Hn. unfold range, seqZ. by replace (Z.to_nat (n - 0)) with 0%nat by lia. Qed.

(** A returning decoder found every cell that [size] names. *)
Lemma ouput_for_pysat_Ok_covers lr (g : list loc) num_r num_c (h : store) out h' :
  0 < num_c →
  ouput_for_pysat lr g (num_r, num_c) h = Ok (out, h') →
  covers h g (num_r, num_c).
Proof.
  intros Hcols Hrun. unfold ouput_for_pysat in Hrun.
  destruct (for_each (range 0 num_r) _ h) as [h2|] eqn:Houter; [|done]. clear Hrun.
  set (I := fun h2 : store => ∀ l, length (h2 !!! l) = length (h !!! l)).
  assert (Hcell : ∀ r c t1 t2, r ∈ range 0 num_r → c ∈ range 0 num_c → I t1 →
                    decode_cell lr g num_c r t1 c = Ok t2 → I t2).
  { intros r c t1 t2 Hr%elem_of_range Hc%elem_of_range Ht1 Hstep.
    destruct (decode_cell_Ok _ _ _ _ _ _ _ (proj1 Hr) Hc Hstep) as (l & _ & _ & Hlen).
    intros l'. by rewrite Hlen. }
  assert (HI : I h) by done.
  destruct (for_each_Ok_visits I _ _ _ _ HI
              (fun r s1 s2 Hr Hs1 Hinner =>
                 proj1 (for_each_Ok_visits I _ _ _ _ Hs1
                          (fun c t1 t2 Hc => Hcell r c t1 t2 Hr Hc) Hinner))
              Houter) as [_ Hrows].
  intros r Hr. simpl in *.
  destruct (Hrows (Z.of_nat r)) as (s1 & s2 & Hs1 & Hinner); [apply elem_of_range; lia|].
  assert (Hrange : Z.of_nat r ∈ range 0 num_r) by (apply elem_of_range; lia).
  destruct (for_each_Ok_visits I _ _ _ _ Hs1
              (fun c t1 t2 Hc => Hcell (Z.of_nat r) c t1 t2 Hrange Hc) Hinner)
    as [_ Hcolumns].
  destruct (Hcolumns (num_c - 1)) as (t1 & t2 & Ht1 & Hstep); [apply elem_of_range; lia|].
  destruct (decode_cell_Ok lr g num_c (Z.of_nat r) (num_c - 1) t1 t2) as (l & Hl & Hlt & _);
    [lia|lia|done|].
  rewrite Nat2Z.id in Hl. exists l. split; [done|]. rewrite <- (Ht1 l). lia.
Qed.

Lemma ouput_for_pysat_covers_Ok lr (g : list loc) num_r num_c (h : store) :
  covers h g (num_r, num_c) →
  ∃ h', ouput_for_pysat lr g (num_r, num_c) h = Ok (g, h').
Proof.
  intros Hcovers. unfold ouput_for_pysat.
  set (I := fun h2 : store => ∀ l, length (h2 !!! l) = length (h !!! l)).
  destruct (for_each_range_invariant (fun _ => I)
              (fun h2 r => for_each (range 0 num_c) (decode_cell lr g num_c r) h2)
              num_r h) as (h' & Hrun & _); [done| |rewrite Hrun; by eexists].
  intros i h2 Hi Hh2. destruct (Hcovers i Hi) as (l & Hl & Hlen). simpl in Hlen.
  apply (for_each_range_invariant (fun _ => I)); [done|].
  intros j h3 Hj Hh3.
  destruct (lookup_lt_is_Some_2 (h3 !!! l) j) as [x Hx]; [rewrite Hh3; lia|].
  pose proof (decode_cell_run lr g num_c i j h3 l x Hj Hl Hx) as Hstep.
  eexists. split; [exact Hstep|].
  edestruct (decode_cell_Ok lr g num_c (Z.of_nat i) (Z.of_nat j) h3)
    as (_ & _ & _ & Hsame); [lia|lia|exact Hstep|].
  intros l'. by rewrite Hsame.
Qed.

(** X16: with at least one column in [size], the decoder returns exactly
    when the grid has every row that [size] names, each with at least as
    many cells as [size] names columns, and raises IndexError otherwise;
    with no column in [size] it returns the grid untouched. *)
Theorem ouput_for_pysat_outcome (lr : list Z) (g : list loc) (num_r num_c : Z)
    (h : store) :
  (num_c ≤ 0 → ouput_for_pysat lr g (num_r, num_c) h = Ok (g, h))
  ∧ (0 < num_c →
     (covers h g (num_r, num_c) →
      ∃ h', ouput_for_pysat lr g (num_r, num_c) h = Ok (g, h'))
     ∧ (¬ covers h g (num_r, num_c) →
        ouput_for_pysat lr g (num_r, num_c) h = Raise IndexError)).
Proof.
  split.
  - intros Hcols. unfold ouput_for_pysat. rewrite (range_empty num_c Hcols).
    destruct (for_each_range_invariant (fun _ h2 => h2 = h)
                (fun (h2 : store) (r : Z) => for_each [] (decode_cell lr g num_c r) h2)
                num_r h) as (h' & Hrun & ->); [done| |by rewrite Hrun].
    intros i h2 _ ->. by exists h.
  - intros Hcols. split; [apply ouput_for_pysat_covers_Ok|].
    intros Hnot.
    destruct (ouput_for_pysat lr g (num_r, num_c) h) as [[out h']|e] eqn:Hrun.
    + destruct Hnot. by eapply ouput_for_pysat_Ok_covers.
    + f_equal. unfold ouput_for_pysat in Hrun.
      destruct (for_each (range 0 num_r) _ h) as [h2|e'] eqn:Houter; [done|].
      injection Hrun as <-.
      apply for_each_Raise in Houter as (r & s1 & _ & Hinner).
      apply for_each_Raise in Hinner as (c & t1 & _ & Hstep).
      by eapply decode_cell_Raise.
Qed.

Lemma ouput_for_pysat_outcome_witness :
  ouput_for_pysat [1] [1%positive] (2, 0) {[ 1%positive := [Unknown] ]}
  = Ok ([1%positive], {[ 1%positive := [Unknown] ]})
  ∧ ouput_for_pysat [1] [1%positive] (2, 1) {[ 1%positive := [Unknown] ]}
    = Raise IndexError.
Proof.
  split.
  - apply (ouput_for_pysat_outcome [1] [1%positive] 2 0). lia.
  - apply (ouput_for_pysat_outcome [1] [1%positive] 2 1); [lia|].
    intros Hcovers. destruct (Hcovers 1%nat) as (l & Hl & _); [simpl; lia|].
    discriminate Hl.
Defined.

(** ** Encoding, solving and decoding together *)

Lemma mark_assignment_of lr num_r num_c r c :
  mark lr num_c r c
  = if assignment_of lr (convert_to_flatten (r, c) (num_r, num_c)) then Mine else Safe.
Proof.
  unfold mark, assignment_of, convert_to_flatten.
  replace (r * num_c + c + 1 - 1) with (r * num_c + c) by lia.
  by destruct (lr !! _).
Qed.

Lemma filter_map_length {A B} (f : A → B) (p : B → bool) (l : list A) :
  length (List.filter p (map f l)) = length (List.filter (fun x => p (f x)) l).
Proof.
  induction l as [|x l IH]; [done|]. simpl. destruct (p (f x)); simpl; by rewrite IH.
Qed.

Lemma elem_of_unknown_neighbours p pos g sz :
  p ∈ unknown_neighbours pos g sz →
  in_bounds p sz = true ∧ cell_at g p = Some Unknown.
Proof.
  unfold unknown_neighbours, unknown_at.
  intros [_ [Hin Hcell%bool_decide_eq_true]%andb_true_iff]%list_elem_of_In%List.filter_In.
  done.
Qed.

(** X17: on a grid of the stated size whose rows are distinct objects, if
    the formula is built and the solver returns a model that satisfies it
    (entry i of the model giving the sign of variable i+1), then
    [Pysat_Solution] returns the decoded grid, every hint cell is still
    there, and around every hint cell the number of unknown neighbours
    marked 'T' equals the hint. *)
Theorem Pysat_Solution_consistent (solver : CNF → option (list Z)) (g : list loc)
    (sz : size) (h : store) (cnf : CNF) (model : list Z) :
  shaped (grid_of h g) sz → NoDup g →
  solve_by_pysat_cnf (grid_of h g) sz = Ok cnf →
  solver cnf = Some model →
  formula_true (assignment_of model) (clauses cnf) = true →
  ∃ h',
    Pysat_Solution solver g sz h = Ok (Some (g, h'))
    ∧ ∀ pos k,
        in_bounds pos sz = true → cell_at (grid_of h g) pos = Some (Hint k) →
        cell_at (grid_of h' g) pos = Some (Hint k)
        ∧ Z.of_nat (length (List.filter
                              (fun p => bool_decide (cell_at (grid_of h' g) p = Some Mine))
                              (unknown_neighbours pos (grid_of h g) sz))) = k.
Proof.
  destruct sz as [num_r num_c]. intros Hshape Hrows Hcnf Hsolver Hmodel.
  destruct (outer_loop_marks model g num_r num_c h Hshape Hrows) as (h' & Hrun & Hall).
  exists h'. split.
  { unfold Pysat_Solution, solve_by_pysat. rewrite Hcnf. cbn [mbind result_bind].
    rewrite Hsolver, Hrun. reflexivity. }
  assert (Hcell : ∀ r c x, in_bounds (r, c) (num_r, num_c) = true →
            cell_at (grid_of h g) (r, c) = Some x →
            cell_at (grid_of h' g) (r, c)
            = Some (if is_unknown x then mark model num_c r c else x)).
  { intros r c x [Hr Hc]%in_bounds_spec. rewrite !cell_at_grid_of. simpl.
    destruct (g !! Z.to_nat r) as [l|] eqn:Hl; simpl; [|done]. intros Hx.
    rewrite (Hall _ _ Hl). unfold decode_row. rewrite list_lookup_imap, Hx. simpl.
    unfold decode. by rewrite !Z2Nat.id by lia. }
  intros [r c] k Hin Hhint. split; [by rewrite (Hcell r c (Hint k))|].
  rewrite solve_by_pysat_cnf_per_cell in Hcnf.
  destruct (mapM _ (positions (num_r, num_c))) as [per_cell|] eqn:Hcells; [|done].
  injection Hcnf as <-. rewrite clauses_fold_CNF_extend in Hmodel. simpl in Hmodel.
  rewrite (per_cell_models _ _ _ _ Hcells) in Hmodel.
  rewrite <- (Hmodel (r, c) k Hin Hhint). unfold count_true.
  rewrite filter_map_length. do 2 f_equal.
  apply List.filter_ext_in. intros [r' c'] Hp%list_elem_of_In.
  apply elem_of_unknown_neighbours in Hp as [Hpin Hpcell].
  rewrite (Hcell r' c' Unknown Hpin Hpcell). simpl.
  rewrite (mark_assignment_of model num_r).
  by destruct (assignment_of model _).
Qed.

Lemma Pysat_Solution_consistent_witness :
  ∃ h',
    Pysat_Solution (fun _ => Some [-1; 2; -3; -4]) [1%positive; 2%positive] (2, 2)
      {[ 1%positive := [Hint 1; Unknown]; 2%positive := [Unknown; Unknown] ]}
    = Ok (Some ([1%positive; 2%positive], h'))
    ∧ grid_of h' [1%positive; 2%positive] = [[Hint 1; Mine]; [Safe; Safe]].
Proof.
  destruct (Pysat_Solution_consistent (fun _ => Some [-1; 2; -3; -4])
              [1%positive; 2%positive] (2, 2)
              {[ 1%positive := [Hint 1; Unknown]; 2%positive := [Unknown; Unknown] ]}
              (mkCNF 4 [[-2; -3]; [-2; -4]; [-3; -4]; [2; 3; 4]])
              [-1; 2; -3; -4]) as (h' & Hrun & _).
  - split; [reflexivity|]. repeat constructor.
  - apply (bool_decide_unpack _). by vm_compute.
  - reflexivity.
  - reflexivity.
  - reflexivity.
  - exists h'. split; [exact Hrun|]. injection Hrun as <-. reflexivity.
Defined.

(** ** What the decoder and the encoder do not look at *)

Lemma for_each_ext_in {A S} (body1 body2 : S → A → result S) (xs : list A) s :
  (∀ s x, x ∈ xs → body1 s x = body2 s x) → for_each xs body1 s = for_each xs body2 s.
Proof.
  revert s. induction xs as [|x xs IH]; intros s Hext; [done|].
  simpl. rewrite Hext by left. destruct (body2 s x); [|done].
  apply IH. intros s' y Hy. apply Hext. by right.
Qed.

(** The test of line 180 reads the sign of one entry. *)
Lemma decode_cell_test lr (index : Z) :
  0 ≤ index →
  (if index <? Z.of_nat (length lr)
   then v ← getitem lr index; Ok (v >? 0)
   else Ok false)
  = Ok (assignment_of lr (index + 1)).
Proof.
  intros Hidx. unfold assignment_of. replace (index + 1 - 1) with index by lia.
  destruct (Z.ltb_spec index (Z.of_nat (length lr))).
  - destruct (lookup_lt_is_Some_2 lr (Z.to_nat index)) as [v Hv]; [lia|].
    by rewrite (getitem_lookup _ _ v), Hv.
  - by rewrite lookup_ge_None_2 by lia.
Qed.

(** X18: the decoder looks only at the signs of the first rows*cols
    entries of the assignment: two assignments that agree there give the
    same result, the same exception included. *)
Theorem ouput_for_pysat_signs_only (lr1 lr2 : list Z) (g : list loc) (sz : size)
    (h : store) :
  (∀ v, 1 ≤ v ≤ sz.1 * sz.2 → assignment_of lr1 v = assignment_of lr2 v) →
  ouput_for_pysat lr1 g sz h = ouput_for_pysat lr2 g sz h.
Proof.
  destruct sz as [num_r num_c]. simpl. intros Hsame. unfold ouput_for_pysat.
  assert (Hloop : ∀ h0, for_each (range 0 num_r)
            (fun h r => for_each (range 0 num_c) (decode_cell lr1 g num_c r) h) h0
          = for_each (range 0 num_r)
            (fun h r => for_each (range 0 num_c) (decode_cell lr2 g num_c r) h) h0);
    [|by rewrite Hloop].
  intros h0. apply for_each_ext_in. intros h1 r Hr%elem_of_range.
  apply for_each_ext_in. intros h2 c Hc%elem_of_range.
  unfold decode_cell.
  destruct (getitem g r) as [l|]; [|done]. cbn [mbind result_bind].
  destruct (getitem (h2 !!! l) c) as [x|]; [|done]. cbn [mbind result_bind].
  destruct (negb (is_unknown x)); [done|].
  rewrite !decode_cell_test by nia. by rewrite Hsame by nia.
Qed.

Lemma ouput_for_pysat_signs_only_witness :
  ouput_for_pysat [5; -7] [1%positive] (1, 2) {[ 1%positive := [Unknown; Unknown] ]}
  = ouput_for_pysat [1; -2; 3; 4] [1%positive] (1, 2)
      {[ 1%positive := [Unknown; Unknown] ]}.
Proof.
  apply ouput_for_pysat_signs_only. simpl. intros v Hv.
  assert (v = 1 ∨ v = 2) as [-> | ->] by lia; reflexivity.
Defined.

Lemma getitem_twice {A B} (g : list (list A)) (r c : Z) (k : A → result B) :
  0 ≤ r → 0 ≤ c →
  (row ← getitem g r; x ← getitem row c; k x)
  = match row ← g !! Z.to_nat r; row !! Z.to_nat c with
    | Some x => k x
    | None => Raise IndexError
    end.
Proof.
  intros Hr Hc. rewrite (getitem_nonneg g) by done.
  destruct (g !! Z.to_nat r) as [row|]; simpl; [|done].
  rewrite (getitem_nonneg row) by done. by destruct (row !! Z.to_nat c).
Qed.

Lemma is_valid_agree p (g1 g2 : grid) sz :
  cell_at g1 p = cell_at g2 p → is_valid p g1 sz = is_valid p g2 sz.
Proof.
  destruct p as [r c], sz as [num_r num_c]. unfold is_valid. intros Hsame.
  change ((0 <=? r) && (r <? num_r) && ((0 <=? c) && (c <? num_c)))
    with (in_bounds (r, c) (num_r, num_c)).
  destruct (in_bounds _ _) eqn:Hin; [|done].
  apply in_bounds_spec in Hin as [Hr Hc].
  rewrite !(getitem_twice _ r c (fun x => Ok (is_unknown x))) by lia.
  unfold cell_at in Hsame. cbn [fst snd] in Hsame. by rewrite Hsame.
Qed.

(** X19: the clauses of a cell depend on the 3x3 block around it only:
    two grids that hold the same cells at the position and at its
    neighbours give the same result at that position, the same exception
    included. *)
Theorem generate_CNF_local (pos : position) (g1 g2 : grid) (sz : size) :
  0 ≤ pos.1 → 0 ≤ pos.2 →
  cell_at g1 pos = cell_at g2 pos →
  (∀ p, p ∈ generate_around pos sz → cell_at g1 p = cell_at g2 p) →
  generate_CNF pos g1 sz = generate_CNF pos g2 sz.
Proof.
  destruct pos as [r c]. cbn [fst snd]. intros Hr Hc Hcentre Haround.
  assert (Hcells : list_cells_of (r, c) g1 sz = list_cells_of (r, c) g2 sz).
  { unfold list_cells_of. apply for_each_ext_in. intros acc p Hp.
    by rewrite (is_valid_agree p g1 g2 sz (Haround p Hp)). }
  unfold generate_CNF. cbn [fst snd].
  rewrite !(getitem_twice _ r c) by done.
  unfold cell_at in Hcentre. cbn [fst snd] in Hcentre. rewrite Hcentre.
  destruct (g2 !! Z.to_nat r ≫= (fun row : list cell => row !! Z.to_nat c)) as [x|]
    eqn:Hx; [|done].
  destruct (is_unknown x); [done|]. rewrite Hcells.
  destruct (list_cells_of (r, c) g2 sz) as [V|]; [|done]. cbn [mbind result_bind].
  rewrite !(getitem_twice _ r c) by done. by rewrite Hcentre, Hx.
Qed.

Lemma generate_CNF_local_witness :
  generate_CNF (0, 0) [[Hint 1; Unknown; Unknown]] (1, 3)
  = generate_CNF (0, 0) [[Hint 1; Unknown; Hint 0]] (1, 3).
Proof.
  apply generate_CNF_local; [simpl; lia|simpl; lia|reflexivity|].
  intros p Hp. change (generate_around (0, 0) (1, 3)) with [(0, 0); (0, 1)] in Hp.
  apply elem_of_cons in Hp as [->|Hp]; [reflexivity|].
  apply list_elem_of_singleton in Hp as ->. reflexivity.
Defined.
